(** * hdrv: the image renderer (src/view/ImageRenderer.cpp)

    A shallow embedding of the renderer of hdrv: the texture cache kept by
    [updateImages], the per-frame [paint] routine with the uniforms it hands
    to the shader program, the pure geometry helpers [texturePosition] and
    [textureScale], the texture-format selectors and the two GLSL stages.

    C++ [float] is IEEE 754 binary32 with round-to-nearest-even; it is taken
    from the Standard Library's executable specification of floating-point
    arithmetic, instantiated at 24 bits of precision. *)

From Stdlib Require Import ZArith Bool List String SpecFloat.
From stdpp Require Import base option list sorting gmap sets fin_maps strings.

Open Scope Z_scope.

(** ** Single-precision arithmetic *)

Module F32.

Definition prec : Z := 24.
Definition emax : Z := 128.

(** A C++ [float]. *)
Definition float : Type := spec_float.

Definition add : float -> float -> float := SFadd prec emax.
Definition sub : float -> float -> float := SFsub prec emax.
Definition mul : float -> float -> float := SFmul prec emax.
Definition div : float -> float -> float := SFdiv prec emax.
Definition neg : float -> float := SFopp.

(** [float(n)] for an integer [n]: the nearest representable value. *)
Definition of_int (n : Z) : float := binary_normalize prec emax n 0 false.

(** [m * 2^e], rounded; used to write literals. *)
Definition of_bits (m e : Z) : float := binary_normalize prec emax m e false.

Definition zero : float := S754_zero false.
Definition one : float := Eval vm_compute in of_int 1.
Definition two : float := Eval vm_compute in of_int 2.
Definition half : float := Eval vm_compute in of_bits 1 (-1).

#[global] Instance float_eq_dec : EqDecision float.
Proof. solve_decision. Defined.

(** [y] is [x] with its binary exponent moved by [k]: the same sign and
    mantissa for finite values, the same value otherwise. *)
Definition scaled (k : Z) (x y : float) : bool :=
  match x, y with
  | S754_finite s m e, S754_finite s' m' e' =>
      Bool.eqb s s' && (m =? m')%positive && (e' =? e + k)
  | S754_zero s, S754_zero s' => Bool.eqb s s'
  | S754_infinity s, S754_infinity s' => Bool.eqb s s'
  | S754_nan, S754_nan => true
  | _, _ => false
  end.

(** [x / 2.0f] and [2.0f * x] only move the exponent of [x]: no rounding,
    no underflow, no overflow. *)
Definition halves_exactly (x : float) : bool := scaled (-1) x (div x two).
Definition doubles_exactly (x : float) : bool := scaled 1 x (mul two x).

(** The representation invariant of a [float]: a canonical mantissa and an
    exponent in range. *)
Definition valid (x : float) : bool := valid_binary prec emax x.

(** A zero, an infinity, a NaN, or a normal float (a full mantissa of
    [prec] bits) whose exponent lies between [lo] and [hi]. *)
Definition normal_between (lo hi : Z) (x : float) : bool :=
  match x with
  | S754_finite _ m e =>
      (Zpos (digits2_pos m) =? prec) && (lo <=? e) && (e <=? hi)
  | _ => true
  end.

(** Finite values that can be halved without underflow are the normal
    floats of magnitude at least 2^-125; those that can be doubled without
    overflow are the normal floats of magnitude below 2^127. *)
Definition halving_safe : float -> bool :=
  normal_between (emin prec emax + 1) (emax - prec).
Definition doubling_safe : float -> bool :=
  normal_between (emin prec emax) (emax - prec - 1).

End F32.

Abbreviation float := F32.float.

Declare Scope f32_scope.
Delimit Scope f32_scope with f32.
Infix "+" := F32.add : f32_scope.
Infix "-" := F32.sub : f32_scope.
Infix "*" := F32.mul : f32_scope.
Infix "/" := F32.div : f32_scope.
Notation "- x" := (F32.neg x) : f32_scope.

(** ** Qt value types used by the renderer

    Only the members the renderer calls are modelled. *)

Module QVector2D.
Record t := make { x : float; y : float }.

(** [operator-(QVector2D, QVector2D)], [operator+], and the two
    [operator/]: by a scalar and componentwise by a vector. *)
Definition sub (a b : t) : t := make (x a - x b)%f32 (y a - y b)%f32.
Definition add (a b : t) : t := make (x a + x b)%f32 (y a + y b)%f32.
Definition divf (a : t) (d : float) : t := make (x a / d)%f32 (y a / d)%f32.
Definition div (a b : t) : t := make (x a / x b)%f32 (y a / y b)%f32.

(** [operator*(float, QVector2D)]; the renderer does not call it, the
    centring identity is stated with it. *)
Definition mulf (factor : float) (v : t) : t :=
  make (factor * x v)%f32 (factor * y v)%f32.

#[global] Instance eq_dec : EqDecision t.
Proof. solve_decision. Defined.
End QVector2D.

Module QPoint.
Record t := make { x : Z; y : Z }.
End QPoint.

Module QSize.
Record t := make { width : Z; height : Z }.
End QSize.

Module QColor.
(** [red()], [green()] and [blue()] return [int] components. *)
Record t := make { red : Z; green : Z; blue : Z }.
End QColor.

Module QOpenGLTexture.
Inductive Target := Target2D.
Inductive TextureFormat := RGBFormat | RGBAFormat.
Inductive PixelFormat := RGB | RGBA.
Inductive PixelType := Float32.
Inductive Filter := Linear | LinearMipMapLinear.
Inductive WrapMode := ClampToBorder.

#[global] Instance TextureFormat_eq_dec : EqDecision TextureFormat.
Proof. solve_decision. Defined.
#[global] Instance PixelFormat_eq_dec : EqDecision PixelFormat.
Proof. solve_decision. Defined.
End QOpenGLTexture.

Module QOpenGLShader.
Inductive ShaderType := Vertex | Fragment.
End QOpenGLShader.

(** ** Images, documents and smart pointers *)

Module Image.
(** Modelled from the spec: the class [Image] is declared outside
    ImageRenderer.cpp; an image is an immutable decoded raster with a
    width, a height, a channel count and floating-point pixel data. *)
Record t := make {
  width : Z;
  height : Z;
  channels : Z;
  data : list float
}.
End Image.

(** Object addresses. *)
Definition addr : Type := positive.

(** A raw pointer value: [None] is the null pointer. *)
Abbreviation ptr := (option addr).

(** [std::shared_ptr<T>]: empty, or the address of the shared object
    together with the object itself.  Images are immutable, so carrying the
    pointee by value loses nothing; equality and ordering of shared
    pointers look at the address only, see [get]. *)
Definition shared_ptr (T : Type) : Type := option (addr * T).

Definition get {T} (p : shared_ptr T) : ptr := fst <$> p.

(** Handles of the GL-side objects (textures and programs) owned through
    [std::unique_ptr]; [None] is the empty pointer. *)
Definition handle : Type := N.
Abbreviation unique_ptr := (option handle).

Module ImageDocument.
(** Modelled from the spec: a document exposes an image reference. *)
Record t := make { image : shared_ptr Image.t }.
End ImageDocument.

Module ImageSettings.
(** Modelled from the spec: the display settings are a value struct with a
    pan offset, a scale factor and a gamma. *)
Record t := make {
  position : QVector2D.t;
  scale : float;
  gamma : float
}.
End ImageSettings.

Module RenderRegion.
(** Modelled from the spec: the render region is the destination viewport,
    a pixel offset and a pixel size within the host surface. *)
Record t := make { offset : QPoint.t; size : QSize.t }.
End RenderRegion.

(** ** Shader sources and the quad *)

Definition vertexSource : string := "
attribute highp vec2 vertices;
varying highp vec2 coords;

void main()
{
  gl_Position = vec4(vertices, 0, 1);
  coords = vertices * 0.5 + 0.5;
}".

Definition fragmentSource : string := "
uniform sampler2D tex;
uniform vec2 position;
uniform vec2 scale;
uniform float gamma;
varying highp vec2 coords;

void main()
{
  vec4 texel = texture2D(tex, (coords - position) / scale);
  vec3 color = pow(texel.xyz, vec3(gamma));
  gl_FragColor = vec4(color, texel.w);
}".

Definition vertexData : list float :=
  let m1 := F32.neg F32.one in
  let p1 := F32.one in
  [m1; m1; p1; m1; m1; p1; p1; p1].

(** ** The GLSL stages *)

Module GLSL.
Section Stages.
(** GLSL leaves the precision of [float] arithmetic and the sampling of
    a texture to the GL implementation: they are parameters here. *)
Variable F : Type.
Variables (fadd fsub fmul fdiv fpow : F -> F -> F).
Variables (lit0 lit1 lit_half : F).
Variable sampler2D : Type.

Record vec2 := Vec2 { x2 : F; y2 : F }.
Record vec3 := Vec3 { x3 : F; y3 : F; z3 : F }.
Record vec4 := Vec4 { x4 : F; y4 : F; z4 : F; w4 : F }.

Variable texture2D : sampler2D -> vec2 -> vec4.

(** [v * c] and [v + c] for a vector and a scalar, [a - b] and [a / b]
    for two vectors: all componentwise. *)
Definition vec2_mul_scalar (v : vec2) (c : F) : vec2 :=
  Vec2 (fmul (x2 v) c) (fmul (y2 v) c).
Definition vec2_add_scalar (v : vec2) (c : F) : vec2 :=
  Vec2 (fadd (x2 v) c) (fadd (y2 v) c).
Definition vec2_sub (a b : vec2) : vec2 :=
  Vec2 (fsub (x2 a) (x2 b)) (fsub (y2 a) (y2 b)).
Definition vec2_div (a b : vec2) : vec2 :=
  Vec2 (fdiv (x2 a) (x2 b)) (fdiv (y2 a) (y2 b)).

(** [vec3(c)], [pow(a, b)], the swizzle [.xyz] and the constructors
    [vec4(vec2, z, w)] and [vec4(vec3, w)]. *)
Definition vec3_splat (c : F) : vec3 := Vec3 c c c.
Definition vec3_pow (a b : vec3) : vec3 :=
  Vec3 (fpow (x3 a) (x3 b)) (fpow (y3 a) (y3 b)) (fpow (z3 a) (z3 b)).
Definition xyz (v : vec4) : vec3 := Vec3 (x4 v) (y4 v) (z4 v).
Definition vec4_of_vec2 (v : vec2) (z w : F) : vec4 := Vec4 (x2 v) (y2 v) z w.
Definition vec4_of_vec3 (v : vec3) (w : F) : vec4 := Vec4 (x3 v) (y3 v) (z3 v) w.

Record VertexOutput := { gl_Position : vec4; coords : vec2 }.

(** [main] of [vertexSource]. *)
Definition vertex_main (vertices : vec2) : VertexOutput :=
  {| gl_Position := vec4_of_vec2 vertices lit0 lit1;
     coords := vec2_add_scalar (vec2_mul_scalar vertices lit_half) lit_half |}.

(** [main] of [fragmentSource]; the result is [gl_FragColor]. *)
Definition fragment_main (tex : sampler2D) (position scale : vec2) (gamma : F)
    (coords : vec2) : vec4 :=
  let texel := texture2D tex (vec2_div (vec2_sub coords position) scale) in
  let color := vec3_pow (xyz texel) (vec3_splat gamma) in
  vec4_of_vec3 color (w4 texel).
End Stages.

Arguments Vec2 {F}.
Arguments Vec3 {F}.
Arguments Vec4 {F}.
Arguments x2 {F}.
Arguments y2 {F}.
Arguments x4 {F}.
Arguments y4 {F}.
Arguments z4 {F}.
Arguments w4 {F}.
Arguments gl_Position {F}.
Arguments coords {F}.
End GLSL.

(** The quad as the four [vec2] attributes read from [vertexData] with a
    tuple size of 2. *)
Fixpoint pairs (l : list float) : list (GLSL.vec2 float) :=
  match l with
  | a :: b :: l' => GLSL.Vec2 a b :: pairs l'
  | _ => []
  end.

(** The vertex stage computed in single precision. *)
Definition vertex_main_f32 : GLSL.vec2 float -> GLSL.VertexOutput float :=
  GLSL.vertex_main float F32.add F32.mul F32.zero F32.one F32.half.

(** ** Texture formats *)

Definition format (image : Image.t) : QOpenGLTexture.TextureFormat :=
  if decide (Image.channels image = 3)
  then QOpenGLTexture.RGBFormat else QOpenGLTexture.RGBAFormat.

Definition pixelFormat (image : Image.t) : QOpenGLTexture.PixelFormat :=
  if decide (Image.channels image = 3)
  then QOpenGLTexture.RGB else QOpenGLTexture.RGBA.

(** ** Geometry of the textured quad *)

Definition texturePosition (regionSize imageSize imagePosition : QVector2D.t)
  : QVector2D.t :=
  let offset := QVector2D.divf (QVector2D.sub regionSize imageSize) F32.two in
  QVector2D.div
    (QVector2D.add offset
       (QVector2D.make (- QVector2D.x imagePosition)%f32
                       (QVector2D.y imagePosition)))
    regionSize.

Definition textureScale (regionSize imageSize : QVector2D.t) : QVector2D.t :=
  QVector2D.div imageSize regionSize.

(** ** The GL context

    The graphics context is observed through the sequence of calls the
    renderer issues, in program order, together with an allocator of object
    handles: every [std::make_unique] of a GL-side object takes the next
    handle. *)

Inductive GLenum := GL_FLOAT | GL_DEPTH_TEST | GL_COLOR_BUFFER_BIT | GL_TRIANGLE_STRIP.

Inductive UniformValue :=
| UInt (n : Z)
| UFloat (v : float)
| UVec2 (v : QVector2D.t).

Inductive GLCall :=
(* QOpenGLFunctions *)
| initializeOpenGLFunctions
| glViewport (x y w h : Z)
| glDisable (cap : GLenum)
| glClearColor (r g b a : float)
| glClear (mask : GLenum)
| glDrawArrays (mode : GLenum) (first count : Z)
(* QOpenGLShaderProgram *)
| Program_new (p : handle)
| addShaderFromSourceCode (p : handle) (ty : QOpenGLShader.ShaderType) (src : string)
| bindAttributeLocation (p : handle) (name : string) (location : Z)
| link (p : handle)
| Program_bind (p : handle)
| enableAttributeArray (p : handle) (location : Z)
| setAttributeArray (p : handle) (location : Z) (ty : GLenum)
    (values : list float) (tupleSize : Z)
| setUniformValue (p : handle) (name : string) (v : UniformValue)
| disableAttributeArray (p : handle) (location : Z)
| Program_release (p : handle)
(* QOpenGLTexture *)
| Texture_new (t : handle) (target : QOpenGLTexture.Target)
| setSize (t : handle) (w h : Z)
| setFormat (t : handle) (f : QOpenGLTexture.TextureFormat)
| allocateStorage (t : handle) (pf : QOpenGLTexture.PixelFormat)
    (pt : QOpenGLTexture.PixelType)
| setData (t : handle) (pf : QOpenGLTexture.PixelFormat)
    (pt : QOpenGLTexture.PixelType) (pixels : list float)
| setMinificationFilter (t : handle) (f : QOpenGLTexture.Filter)
| setMagnificationFilter (t : handle) (f : QOpenGLTexture.Filter)
| setWrapMode (t : handle) (m : QOpenGLTexture.WrapMode)
| generateMipMaps (t : handle)
| setBorderColor (t : handle) (c : QColor.t)
| Texture_bind (t : handle) (unit : Z)
| Texture_release (t : handle) (unit : Z)
| Texture_delete (t : handle).

(** ** The renderer object *)

Module ImageRenderer.
(** Modelled from the spec: the member declarations live in
    ImageRenderer.hpp.  The cache is a [std::map] from image identity to
    an owned texture; the program is owned through a [std::unique_ptr]. *)
Record t := make {
  program_ : unique_ptr;
  textures_ : gmap ptr unique_ptr;
  current_ : shared_ptr Image.t;
  renderRegion_ : RenderRegion.t;
  clearColor_ : QColor.t;
  settings_ : ImageSettings.t
}.

Definition set_program_ (p : unique_ptr) (r : t) : t :=
  make p (textures_ r) (current_ r) (renderRegion_ r) (clearColor_ r) (settings_ r).
Definition set_textures_ (m : gmap ptr unique_ptr) (r : t) : t :=
  make (program_ r) m (current_ r) (renderRegion_ r) (clearColor_ r) (settings_ r).
Definition set_current_ (c : shared_ptr Image.t) (r : t) : t :=
  make (program_ r) (textures_ r) c (renderRegion_ r) (clearColor_ r) (settings_ r).
End ImageRenderer.

Record State := mkState {
  this : ImageRenderer.t;
  calls : list GLCall;
  next : handle
}.

(** A member function either returns, or runs into undefined behaviour
    (dereferencing an empty smart pointer); the state is the one reached at
    that point. *)
Inductive Result (A : Type) :=
| Returns (a : A) (s : State)
| Undefined (s : State).
Arguments Returns {A} a s.
Arguments Undefined {A} s.

Definition M (A : Type) : Type := State -> Result A.

#[global] Instance M_ret : MRet M := fun A a s => Returns a s.
#[global] Instance M_bind : MBind M := fun A B f m s =>
  match m s with
  | Returns a s' => f a s'
  | Undefined s' => Undefined s'
  end.

Definition gets {A} (f : ImageRenderer.t -> A) : M A :=
  fun s => Returns (f (this s)) s.

Definition modify (f : ImageRenderer.t -> ImageRenderer.t) : M unit :=
  fun s => Returns tt (mkState (f (this s)) (calls s) (next s)).

Definition call (c : GLCall) : M unit :=
  fun s => Returns tt (mkState (this s) (calls s ++ [c]) (next s)).

Definition make_unique : M handle :=
  fun s => Returns (next s) (mkState (this s) (calls s) (N.succ (next s))).

Definition undefined {A} : M A := fun s => Undefined s.

(** [*p] for a shared pointer. *)
Definition deref {T} (p : shared_ptr T) : M T :=
  match p with
  | Some (_, obj) => mret obj
  | None => undefined
  end.

(** [*p] and [p->] for a unique pointer. *)
Definition deref_unique (p : unique_ptr) : M handle :=
  match p with
  | Some h => mret h
  | None => undefined
  end.

Fixpoint for_each {A} (l : list A) (body : A -> M unit) : M unit :=
  match l with
  | [] => mret tt
  | a :: l' => body a ;; for_each l' body
  end.

(** ** createProgram and createTexture *)

Definition createProgram : M handle :=
  program ← make_unique;
  call (Program_new program);;
  call (addShaderFromSourceCode program QOpenGLShader.Vertex vertexSource);;
  call (addShaderFromSourceCode program QOpenGLShader.Fragment fragmentSource);;
  call (bindAttributeLocation program "vertices" 0);;
  call (link program);;
  mret program.

Definition createTexture (image : Image.t) : M handle :=
  texture ← make_unique;
  call (Texture_new texture QOpenGLTexture.Target2D);;
  call (setSize texture (Image.width image) (Image.height image));;
  call (setFormat texture (format image));;
  call (allocateStorage texture (pixelFormat image) QOpenGLTexture.Float32);;
  call (setData texture (pixelFormat image) QOpenGLTexture.Float32 (Image.data image));;
  call (setMinificationFilter texture QOpenGLTexture.LinearMipMapLinear);;
  call (setMagnificationFilter texture QOpenGLTexture.Linear);;
  call (setWrapMode texture QOpenGLTexture.ClampToBorder);;
  call (generateMipMaps texture);;
  mret texture.

(** ** The texture cache: a std::map *)

(** [std::map] keeps its entries in ascending key order; shared pointers
    are ordered by address, the empty pointer first. *)
Definition key_le (a b : ptr * unique_ptr) : Prop :=
  match a.1, b.1 with
  | None, _ => True
  | Some _, None => False
  | Some x, Some y => (x <= y)%positive
  end.

#[global] Instance key_le_dec a b : Decision (key_le a b).
Proof.
  unfold key_le. destruct a.1, b.1; apply _.
Defined.

(** The entries met by a loop from [begin()] to [end()]. *)
Definition entries (m : gmap ptr unique_ptr) : list (ptr * unique_ptr) :=
  merge_sort key_le (map_to_list m).

(** [textures_[key]]: the mapped value, after inserting an empty pointer
    when the key has no entry. *)
Definition subscript (key : ptr) : M unique_ptr :=
  m ← gets ImageRenderer.textures_;
  match m !! key with
  | Some tex => mret tex
  | None => modify (ImageRenderer.set_textures_ (<[key := None]> m));; mret None
  end.

(** Assignment through the reference returned by [textures_[key]]. *)
Definition assign (key : ptr) (tex : unique_ptr) : M unit :=
  m ← gets ImageRenderer.textures_;
  modify (ImageRenderer.set_textures_ (<[key := tex]> m)).

(** [textures_.erase(iter)]: the entry goes, and the texture it owns is
    destroyed with it. *)
Definition erase (entry : ptr * unique_ptr) : M unit :=
  m ← gets ImageRenderer.textures_;
  modify (ImageRenderer.set_textures_ (delete entry.1 m));;
  match entry.2 with
  | Some t => call (Texture_delete t)
  | None => mret tt
  end.

(** [std::find_if(images.begin(), images.end(), matchImage) == images.end()]
    with [matchImage doc := doc->image() == iter->first]. *)
Definition matchImage (key : ptr) (doc : ImageDocument.t) : bool :=
  bool_decide (get (ImageDocument.image doc) = key).

Definition find_if (images : list ImageDocument.t) (p : ImageDocument.t -> bool)
  : option ImageDocument.t := List.find p images.

(** ** Member functions of ImageRenderer *)

Definition setCurrent (image : shared_ptr Image.t) : M unit :=
  modify (ImageRenderer.set_current_ image).

(** Body of the first loop of [updateImages], at the entry [iter]. *)
Definition eraseIfUnreferenced (images : list ImageDocument.t)
    (iter : ptr * unique_ptr) : M unit :=
  match find_if images (matchImage iter.1) with
  | None => erase iter
  | Some _ => mret tt
  end.

(** Body of the second loop of [updateImages], at the document [doc]. *)
Definition createIfMissing (doc : ImageDocument.t) : M unit :=
  let key := get (ImageDocument.image doc) in
  tex ← subscript key;
  match tex with
  | None =>
      image ← deref (ImageDocument.image doc);
      t ← createTexture image;
      assign key (Some t)
  | Some _ => mret tt
  end.

Definition updateImages (images : list ImageDocument.t) : M unit :=
  (* Erase textures for images that no longer exist *)
  m ← gets ImageRenderer.textures_;
  for_each (entries m) (eraseIfUnreferenced images);;
  (* Create textures for new images *)
  for_each images createIfMissing.

Definition paint : M unit :=
  program ← gets ImageRenderer.program_;
  program ← match program with
            | None =>
                call initializeOpenGLFunctions;;
                p ← createProgram;
                modify (ImageRenderer.set_program_ (Some p));;
                mret p
            | Some p => mret p
            end;
  call (Program_bind program);;
  call (enableAttributeArray program 0);;
  call (setAttributeArray program 0 GL_FLOAT vertexData 2);;
  region ← gets ImageRenderer.renderRegion_;
  current ← gets ImageRenderer.current_;
  image ← deref current;
  tex ← subscript (get current);
  texture ← deref_unique tex;
  settings ← gets ImageRenderer.settings_;
  clearColor ← gets ImageRenderer.clearColor_;
  let regionSize :=
    QVector2D.make (F32.of_int (QSize.width (RenderRegion.size region)))
                   (F32.of_int (QSize.height (RenderRegion.size region))) in
  let imageSize :=
    QVector2D.make
      (F32.of_int (Image.width image) * ImageSettings.scale settings)%f32
      (F32.of_int (Image.height image) * ImageSettings.scale settings)%f32 in
  call (setBorderColor texture clearColor);;
  call (Texture_bind texture 0);;
  call (setUniformValue program "tex" (UInt 0));;
  call (setUniformValue program "position"
          (UVec2 (texturePosition regionSize imageSize
                    (ImageSettings.position settings))));;
  call (setUniformValue program "scale"
          (UVec2 (textureScale regionSize imageSize)));;
  call (setUniformValue program "gamma"
          (UFloat (F32.one / ImageSettings.gamma settings)%f32));;
  call (glViewport (QPoint.x (RenderRegion.offset region))
                   (QPoint.y (RenderRegion.offset region))
                   (QSize.width (RenderRegion.size region))
                   (QSize.height (RenderRegion.size region)));;
  call (glDisable GL_DEPTH_TEST);;
  call (glClearColor (F32.of_int (QColor.red clearColor))
                     (F32.of_int (QColor.green clearColor))
                     (F32.of_int (QColor.blue clearColor)) F32.one);;
  call (glClear GL_COLOR_BUFFER_BIT);;
  call (glDrawArrays GL_TRIANGLE_STRIP 0 4);;
  call (Texture_release texture 0);;
  call (disableAttributeArray program 0);;
  call (Program_release program).

(** ** Observations on states and call sequences *)

(** The state a call ends in, whether it returns or not. *)
Definition final {A} (r : Result A) : State :=
  match r with
  | Returns _ s => s
  | Undefined s => s
  end.

Definition cache (s : State) : gmap ptr unique_ptr :=
  ImageRenderer.textures_ (this s).

(** The image identities referenced by a document list. *)
Definition referenced (images : list ImageDocument.t) : gset ptr :=
  list_to_set ((fun doc => get (ImageDocument.image doc)) <$> images).

Definition is_Program_new (c : GLCall) : bool :=
  match c with Program_new _ => true | _ => false end.

(** How many shader programs a call sequence creates. *)
Definition program_creations (l : list GLCall) : nat :=
  length (filter is_Program_new l).

(** The values a call sequence gives to the uniform [name], in order. *)
Fixpoint uniform_values (name : string) (l : list GLCall) : list UniformValue :=
  match l with
  | [] => []
  | setUniformValue _ n v :: l' =>
      if String.eqb n name then v :: uniform_values name l'
      else uniform_values name l'
  | _ :: l' => uniform_values name l'
  end.

(** ** A renderer driven by its host *)

Inductive Op :=
| OpSetCurrent (image : shared_ptr Image.t)
| OpUpdateImages (images : list ImageDocument.t)
| OpPaint.

Definition step (op : Op) : M unit :=
  match op with
  | OpSetCurrent image => setCurrent image
  | OpUpdateImages images => updateImages images
  | OpPaint => paint
  end.

Definition run (ops : list Op) : M unit := for_each ops step.

Definition is_paint (op : Op) : bool :=
  match op with OpPaint => true | _ => false end.

(** An operation that does not take the image [key] out of the cache:
    anything but an [updateImages] whose list no longer references it. *)
Definition keeps (key : ptr) (op : Op) : Prop :=
  match op with
  | OpUpdateImages images => key ∈ referenced images
  | _ => True
  end.

(** ** The course of paint *)

(** The program [paint] draws with, and the calls and the allocation its
    first lines perform to obtain it. *)
Definition program_of (s : State) : handle :=
  match ImageRenderer.program_ (this s) with
  | Some p => p
  | None => next s
  end.

Definition setup_calls (s : State) : list GLCall :=
  match ImageRenderer.program_ (this s) with
  | Some _ => []
  | None =>
      [initializeOpenGLFunctions;
       Program_new (next s);
       addShaderFromSourceCode (next s) QOpenGLShader.Vertex vertexSource;
       addShaderFromSourceCode (next s) QOpenGLShader.Fragment fragmentSource;
       bindAttributeLocation (next s) "vertices" 0;
       link (next s)]
  end.

Definition next_after_setup (s : State) : handle :=
  match ImageRenderer.program_ (this s) with
  | Some _ => next s
  | None => N.succ (next s)
  end.

Definition bind_calls (p : handle) : list GLCall :=
  [Program_bind p; enableAttributeArray p 0;
   setAttributeArray p 0 GL_FLOAT vertexData 2].

Definition regionSize_of (region : RenderRegion.t) : QVector2D.t :=
  QVector2D.make (F32.of_int (QSize.width (RenderRegion.size region)))
                 (F32.of_int (QSize.height (RenderRegion.size region))).

Definition imageSize_of (image : Image.t) (settings : ImageSettings.t)
  : QVector2D.t :=
  QVector2D.make
    (F32.of_int (Image.width image) * ImageSettings.scale settings)%f32
    (F32.of_int (Image.height image) * ImageSettings.scale settings)%f32.

(** The calls of one frame once the texture [t] has been found. *)
Definition draw_calls (p t : handle) (r : ImageRenderer.t) (image : Image.t)
  : list GLCall :=
  let region := ImageRenderer.renderRegion_ r in
  let settings := ImageRenderer.settings_ r in
  let clearColor := ImageRenderer.clearColor_ r in
  [setBorderColor t clearColor;
   Texture_bind t 0;
   setUniformValue p "tex" (UInt 0);
   setUniformValue p "position"
     (UVec2 (texturePosition (regionSize_of region) (imageSize_of image settings)
               (ImageSettings.position settings)));
   setUniformValue p "scale"
     (UVec2 (textureScale (regionSize_of region) (imageSize_of image settings)));
   setUniformValue p "gamma" (UFloat (F32.one / ImageSettings.gamma settings)%f32);
   glViewport (QPoint.x (RenderRegion.offset region))
              (QPoint.y (RenderRegion.offset region))
              (QSize.width (RenderRegion.size region))
              (QSize.height (RenderRegion.size region));
   glDisable GL_DEPTH_TEST;
   glClearColor (F32.of_int (QColor.red clearColor))
                (F32.of_int (QColor.green clearColor))
                (F32.of_int (QColor.blue clearColor)) F32.one;
   glClear GL_COLOR_BUFFER_BIT;
   glDrawArrays GL_TRIANGLE_STRIP 0 4;
   Texture_release t 0;
   disableAttributeArray p 0;
   Program_release p].

(** The state [paint] is in when it reaches line 113, program in hand. *)
Definition after_setup (s : State) : State :=
  mkState (ImageRenderer.set_program_ (Some (program_of s)) (this s))
          (calls s ++ setup_calls s ++ bind_calls (program_of s))
          (next_after_setup s).

(** ** Sample inputs *)

Definition zero_pan : QVector2D.t := QVector2D.make F32.zero F32.zero.

(** A region so large that doubling its size overflows. *)
Definition huge_region : QVector2D.t :=
  QVector2D.make (F32.of_bits 1 127) (F32.of_bits 1 127).
Definition no_image : QVector2D.t := QVector2D.make F32.zero F32.zero.

(** ** A session *)

Module Session.

Definition rgb_2x1 : Image.t :=
  Image.make 2 1 3
    [F32.one; F32.half; F32.zero; F32.half; F32.half; F32.two].
Definition rgba_1x1 : Image.t :=
  Image.make 1 1 4 [F32.one; F32.one; F32.zero; F32.one].

Definition image_a : shared_ptr Image.t := Some (1%positive, rgb_2x1).
Definition image_b : shared_ptr Image.t := Some (2%positive, rgba_1x1).
Definition doc_a : ImageDocument.t := ImageDocument.make image_a.
Definition doc_b : ImageDocument.t := ImageDocument.make image_b.

(** A renderer on which nothing has been called yet. *)
Definition fresh : State :=
  mkState
    (ImageRenderer.make None ∅ None
       (RenderRegion.make (QPoint.make 0 0) (QSize.make 800 600))
       (QColor.make 0 0 0)
       (ImageSettings.make (QVector2D.make F32.zero F32.zero) F32.one F32.two))
    [] 0%N.

(** Both documents open, their textures created. *)
Definition both_open : State :=
  Eval vm_compute in final (updateImages [doc_a; doc_b; doc_a] fresh).

(** The same with the first image current. *)
Definition ready : State :=
  Eval vm_compute in final (setCurrent image_a both_open).

Definition painted : State := Eval vm_compute in final (paint ready).

(** The first image made current before any [updateImages]. *)
Definition unprepared : State :=
  Eval vm_compute in final (setCurrent image_a fresh).

Definition frames : list Op :=
  [OpPaint; OpUpdateImages [doc_a; doc_b]; OpSetCurrent image_b; OpPaint].

Definition after_frames : State :=
  Eval vm_compute in
    final (run ([OpUpdateImages [doc_a]; OpSetCurrent image_a]
                  ++ OpPaint :: frames) fresh).

End Session.

(** Runs a straight-line body on a state given by its fields: the member
    functions, the primitive actions and the field accesses are unfolded,
    map lookups and arithmetic are left alone. *)
Ltac step_through :=
  cbv beta iota zeta delta
    [paint updateImages setCurrent createIfMissing eraseIfUnreferenced
     subscript assign erase createTexture createProgram deref deref_unique
     gets modify call make_unique undefined mbind M_bind mret M_ret
     this calls next final cache
     ImageRenderer.program_ ImageRenderer.textures_ ImageRenderer.current_
     ImageRenderer.renderRegion_ ImageRenderer.clearColor_
     ImageRenderer.settings_ ImageRenderer.set_program_
     ImageRenderer.set_textures_ ImageRenderer.set_current_
     ImageDocument.image
     after_setup program_of setup_calls next_after_setup bind_calls
     draw_calls regionSize_of imageSize_of
     get fmap option_fmap option_map fst snd].

(** ** Further observations on the call log and the cache *)

(** The calls issued between two states of one run. *)
Definition new_calls (s s' : State) : list GLCall :=
  drop (length (calls s)) (calls s').

Definition created_texture (c : GLCall) : option handle :=
  match c with Texture_new t _ => Some t | _ => None end.

Definition deleted_texture (c : GLCall) : option handle :=
  match c with Texture_delete t => Some t | _ => None end.

Definition bound_texture (c : GLCall) : option handle :=
  match c with Texture_bind t _ => Some t | _ => None end.

(** The textures a call sequence creates, destroys and binds, in order. *)
Definition created_textures (l : list GLCall) : list handle :=
  omap created_texture l.
Definition deleted_textures (l : list GLCall) : list handle :=
  omap deleted_texture l.
Definition bound_textures (l : list GLCall) : list handle :=
  omap bound_texture l.

(** The calls [updateImages] can make on a texture: the nine of
    [createTexture] and the destruction that comes with [erase].
    [setBorderColor], [bind] and [release], which [paint] makes on the
    texture it finds, are not among them. *)
Definition is_texture_lifecycle (c : GLCall) : bool :=
  match c with
  | Texture_new _ _ | setSize _ _ _ | setFormat _ _ | allocateStorage _ _ _
  | setData _ _ _ _ | setMinificationFilter _ _ | setMagnificationFilter _ _
  | setWrapMode _ _ | generateMipMaps _ | Texture_delete _ => true
  | _ => false
  end.

(** Whether a call is made on a texture, and the calls of a sequence that
    are. *)
Definition on_texture (c : GLCall) : bool :=
  match c with
  | Texture_new _ _ | setSize _ _ _ | setFormat _ _ | allocateStorage _ _ _
  | setData _ _ _ _ | setMinificationFilter _ _ | setMagnificationFilter _ _
  | setWrapMode _ _ | generateMipMaps _ | setBorderColor _ _
  | Texture_bind _ _ | Texture_release _ _ | Texture_delete _ => true
  | _ => false
  end.

Definition calls_on_textures (l : list GLCall) : list GLCall :=
  filter on_texture l.

(** The calls that make a shader program: its creation, the compilation of
    a shader from source, the binding of an attribute location, and the
    link; and those of a call sequence, in order. *)
Definition is_program_build (c : GLCall) : bool :=
  match c with
  | Program_new _ | addShaderFromSourceCode _ _ _
  | bindAttributeLocation _ _ _ | link _ => true
  | _ => false
  end.

Definition program_build (l : list GLCall) : list GLCall :=
  filter is_program_build l.

(** The calls of [createProgram] on the program [p]. *)
Definition program_calls (p : handle) : list GLCall :=
  [Program_new p;
   addShaderFromSourceCode p QOpenGLShader.Vertex vertexSource;
   addShaderFromSourceCode p QOpenGLShader.Fragment fragmentSource;
   bindAttributeLocation p "vertices" 0;
   link p].

(** The calls of [createTexture] on the texture [t]. *)
Definition texture_calls (t : handle) (image : Image.t) : list GLCall :=
  [Texture_new t QOpenGLTexture.Target2D;
   setSize t (Image.width image) (Image.height image);
   setFormat t (format image);
   allocateStorage t (pixelFormat image) QOpenGLTexture.Float32;
   setData t (pixelFormat image) QOpenGLTexture.Float32 (Image.data image);
   setMinificationFilter t QOpenGLTexture.LinearMipMapLinear;
   setMagnificationFilter t QOpenGLTexture.Linear;
   setWrapMode t QOpenGLTexture.ClampToBorder;
   generateMipMaps t].

(** Whether the map holds a texture under [key]. *)
Definition has_texture (m : gmap ptr unique_ptr) (key : ptr) : bool :=
  match m !! key with
  | Some (Some _) => true
  | _ => false
  end.

(** The textures of the entries that no document of [images] references,
    in the order of the map. *)
Definition victims (images : list ImageDocument.t) (m : gmap ptr unique_ptr)
  : list handle :=
  omap snd (filter (fun entry => entry.1 ∉ referenced images) (entries m)).

(** The referenced images that have no texture yet. *)
Definition missing (images : list ImageDocument.t) (m : gmap ptr unique_ptr)
  : gset ptr :=
  filter (fun key => has_texture m key = false) (referenced images).

(** Ownership of textures: no entry is empty, no texture sits under two
    keys, the textures in the map are those created and not yet destroyed,
    nothing is destroyed twice or without having been created, nothing is
    created twice, and the allocator is ahead of every texture created. *)
Definition owns_live (s : State) : Prop :=
  (forall key, cache s !! key <> Some None) /\
  (forall k1 k2 t,
      cache s !! k1 = Some (Some t) -> cache s !! k2 = Some (Some t) -> k1 = k2) /\
  (forall t, (exists key, cache s !! key = Some (Some t)) <->
             t ∈ created_textures (calls s) /\ t ∉ deleted_textures (calls s)) /\
  NoDup (deleted_textures (calls s)) /\
  (forall t, t ∈ deleted_textures (calls s) -> t ∈ created_textures (calls s)) /\
  NoDup (created_textures (calls s)) /\
  (forall t, t ∈ created_textures (calls s) -> (t < next s)%N).

(** Infinities and NaN. *)
Definition not_finite (x : float) : bool :=
  match x with
  | S754_infinity _ | S754_nan => true
  | _ => false
  end.

(** ** The session goes on *)

Module Later.

(** The first document closed while its image is still current. *)
Definition closed_a : State :=
  Eval vm_compute in final (updateImages [Session.doc_b] Session.ready).

(** The first document opened again. *)
Definition reopened : State :=
  Eval vm_compute in
    final (updateImages [Session.doc_a; Session.doc_b] closed_a).

(** The prepared renderer with a region that has lost its width. *)
Definition narrow : State :=
  mkState
    (ImageRenderer.make None (cache Session.ready)
       Session.image_a
       (RenderRegion.make (QPoint.make 0 0) (QSize.make 0 600))
       (QColor.make 0 0 0)
       (ImageSettings.make (QVector2D.make F32.zero F32.zero) F32.one F32.two))
    (calls Session.ready) (next Session.ready).

Definition narrow_painted : State := Eval vm_compute in final (paint narrow).

End Later.


(** * Properties *)

(** ** The monad *)

Lemma bind_returns {A B} (m : M A) (f : A -> M B) s a s1 :
  m s = Returns a s1 -> (m ≫= f) s = f a s1.
Proof. intros H. unfold mbind, M_bind. by rewrite H. Qed.

Lemma bind_inv {A B} (m : M A) (f : A -> M B) s b s2 :
  (m ≫= f) s = Returns b s2 ->
  exists a s1, m s = Returns a s1 /\ f a s1 = Returns b s2.
Proof.
  unfold mbind, M_bind. destruct (m s) as [a s1|s1]; [eauto | discriminate].
Qed.

Lemma for_each_cons {A} (a : A) l (body : A -> M unit) s :
  for_each (a :: l) body s = (body a ;; for_each l body) s.
Proof. reflexivity. Qed.

Lemma for_each_app_inv {A} (l1 l2 : list A) (body : A -> M unit) s s2 :
  for_each (l1 ++ l2) body s = Returns tt s2 ->
  exists s1, for_each l1 body s = Returns tt s1 /\
             for_each l2 body s1 = Returns tt s2.
Proof.
  revert s. induction l1 as [|a l1 IH]; intros s H.
  - exists s. by split.
  - cbn [app] in H. rewrite for_each_cons in H.
    apply bind_inv in H as ([] & s' & Ha & Hl).
    destruct (IH _ Hl) as (s1 & H1 & H2).
    exists s1. split; [|done].
    rewrite for_each_cons, (bind_returns _ _ _ _ _ Ha). done.
Qed.

(** A loop whose body leaves every state alone is a no-op. *)
Lemma for_each_skip {A} (l : list A) (body : A -> M unit) s :
  (forall a, a ∈ l -> body a s = Returns tt s) ->
  for_each l body s = Returns tt s.
Proof.
  induction l as [|a l IH]; intros H; [done|].
  rewrite for_each_cons, (bind_returns _ _ _ tt s).
  - apply IH. intros b Hb. apply H. by right.
  - apply H. by left.
Qed.

(** ** The texture cache *)

Lemma find_if_None images key :
  find_if images (matchImage key) = None <-> key ∉ referenced images.
Proof.
  unfold find_if, referenced, matchImage.
  rewrite elem_of_list_to_set, list_elem_of_fmap. split.
  - intros Hnone (doc & -> & Hin).
    apply list_elem_of_In in Hin.
    pose proof (find_none _ _ Hnone _ Hin) as Hf. cbn in Hf.
    by apply bool_decide_eq_false in Hf.
  - intros Hnot.
    destruct (find _ images) as [doc|] eqn:Hfind; [|done].
    apply find_some in Hfind as [Hin Hm].
    apply bool_decide_eq_true in Hm.
    exfalso. apply Hnot. exists doc. split; [done|].
    by apply list_elem_of_In.
Qed.

Lemma elem_of_entries (m : gmap ptr unique_ptr) key tex :
  (key, tex) ∈ entries m <-> m !! key = Some tex.
Proof.
  unfold entries. rewrite merge_sort_Permutation.
  apply elem_of_map_to_list.
Qed.

(** The first loop: every visited entry that no document references is
    gone, the others and everything outside the cache are as before. *)
Lemma erase_loop images l s :
  exists s1 deleted,
    for_each l (eraseIfUnreferenced images) s = Returns tt s1 /\
    (forall key, key ∈ l.*1 -> key ∉ referenced images ->
                 cache s1 !! key = None) /\
    (forall key, (key ∈ l.*1 -> key ∈ referenced images) ->
                 cache s1 !! key = cache s !! key) /\
    ImageRenderer.program_ (this s1) = ImageRenderer.program_ (this s) /\
    ImageRenderer.current_ (this s1) = ImageRenderer.current_ (this s) /\
    ImageRenderer.renderRegion_ (this s1) = ImageRenderer.renderRegion_ (this s) /\
    ImageRenderer.clearColor_ (this s1) = ImageRenderer.clearColor_ (this s) /\
    ImageRenderer.settings_ (this s1) = ImageRenderer.settings_ (this s) /\
    next s1 = next s /\
    calls s1 = calls s ++ (Texture_delete <$> deleted).
Proof.
  revert s. induction l as [|[key0 tex0] l IH]; intros s.
  - exists s, []. cbn. rewrite app_nil_r. repeat split; try done.
    intros key Hin. by apply elem_of_nil in Hin.
  - rewrite for_each_cons, fmap_cons. cbn [fst].
    destruct (find_if images (matchImage key0)) as [doc|] eqn:Hfind.
    + assert (eraseIfUnreferenced images (key0, tex0) s = Returns tt s) as Hbody.
      { unfold eraseIfUnreferenced. cbn [fst]. by rewrite Hfind. }
      assert (key0 ∈ referenced images) as Hin.
      { destruct (decide (key0 ∈ referenced images)) as [|Hn]; [done|].
        apply find_if_None in Hn. congruence. }
      destruct (IH s) as (s1 & del & Hrun & Hgone & Hkept & Hrest).
      exists s1, del. split; [by rewrite (bind_returns _ _ _ _ _ Hbody)|].
      split; [|split; [|exact Hrest]].
      * intros key [->|Hl]%elem_of_cons Hnr; [done|]. by apply Hgone.
      * intros key Hk. apply Hkept. intros Hl. apply Hk. by right.
    + set (s' := mkState
                   (ImageRenderer.set_textures_ (delete key0 (cache s)) (this s))
                   (calls s ++ match tex0 with Some t => [Texture_delete t] | None => [] end)
                   (next s)).
      assert (eraseIfUnreferenced images (key0, tex0) s = Returns tt s') as Herase.
      { unfold eraseIfUnreferenced. cbn [fst]. rewrite Hfind.
        unfold erase, s', cache. cbn. destruct tex0; cbn; [done|].
        by rewrite app_nil_r. }
      apply find_if_None in Hfind.
      destruct (IH s') as (s1 & del & Hrun & Hgone & Hkept & Hp & Hc & Hr & Hcc & Hs & Hn & Hcalls).
      exists s1, (match tex0 with Some t => [t] | None => [] end ++ del).
      split; [by rewrite (bind_returns _ _ _ _ _ Herase)|].
      split; [|split; [|repeat split; try done]].
      * intros key Hk Hnr.
        destruct (decide (key ∈ l.*1)) as [Hl|Hl]; [by apply Hgone|].
        apply elem_of_cons in Hk as [->|Hk]; [|done].
        rewrite Hkept by done. unfold s', cache. cbn.
        apply lookup_delete_eq.
      * intros key Hk.
        assert (key <> key0) as Hne.
        { intros ->. apply Hfind, Hk. by left. }
        rewrite Hkept.
        -- unfold s', cache. cbn. by apply lookup_delete_ne.
        -- intros Hl. apply Hk. by right.
      * rewrite Hcalls. unfold s'. cbn. rewrite fmap_app, app_assoc.
        by destruct tex0.
Qed.

(** One round of the second loop. *)
Lemma createIfMissing_returns doc s s' :
  createIfMissing doc s = Returns tt s' ->
  let key := get (ImageDocument.image doc) in
  (exists t, cache s' !! key = Some (Some t)) /\
  (forall k, k <> key -> cache s' !! k = cache s !! k) /\
  (forall k t, cache s !! k = Some (Some t) -> cache s' !! k = Some (Some t)) /\
  ((exists t, cache s !! key = Some (Some t)) -> s' = s) /\
  ImageRenderer.program_ (this s') = ImageRenderer.program_ (this s) /\
  ImageRenderer.current_ (this s') = ImageRenderer.current_ (this s).
Proof.
  destruct s as [[prog tex cur reg col set] cs n].
  destruct doc as [[[a img]|]]; step_through.
  - destruct (tex !! Some a) as [[t|]|] eqn:Hlook; step_through;
      intros [= <-]; step_through.
    + repeat split; eauto.
    + rewrite lookup_insert_eq. repeat split; eauto.
      * intros k Hk. by rewrite lookup_insert_ne.
      * intros k t Hk. rewrite lookup_insert_ne; [done|]. congruence.
      * intros [t Ht]. congruence.
    + rewrite insert_insert_eq, lookup_insert_eq. repeat split; eauto.
      * intros k Hk. by rewrite lookup_insert_ne.
      * intros k t Hk. rewrite lookup_insert_ne; [done|]. congruence.
      * intros [t Ht]. congruence.
  - destruct (tex !! None) as [[t|]|] eqn:Hlook; step_through; [|done..].
    intros [= <-]; step_through. repeat split; eauto.
Qed.

Lemma createIfMissing_total doc s :
  ImageDocument.image doc <> None ->
  exists s', createIfMissing doc s = Returns tt s'.
Proof.
  destruct s as [[prog tex cur reg col set] cs n].
  destruct doc as [[[a img]|]]; [intros _|done].
  step_through.
  destruct (tex !! Some a) as [[t|]|]; step_through; eauto.
Qed.

Lemma createIfMissing_present doc s t :
  cache s !! get (ImageDocument.image doc) = Some (Some t) ->
  createIfMissing doc s = Returns tt s.
Proof.
  intros Hlook. unfold createIfMissing, subscript, gets, mbind, M_bind.
  unfold cache in Hlook. by rewrite Hlook.
Qed.

Lemma elem_of_referenced_cons doc images key :
  key ∈ referenced (doc :: images) <->
  key = get (ImageDocument.image doc) \/ key ∈ referenced images.
Proof.
  unfold referenced. rewrite fmap_cons, list_to_set_cons.
  rewrite elem_of_union, elem_of_singleton. done.
Qed.

Lemma elem_of_referenced doc images :
  doc ∈ images -> get (ImageDocument.image doc) ∈ referenced images.
Proof.
  intros Hin. unfold referenced. rewrite elem_of_list_to_set, list_elem_of_fmap.
  by exists doc.
Qed.

(** The second loop: every referenced image ends with a texture, entries
    that already hold a texture keep it, nothing else is touched. *)
Lemma create_loop images s s' :
  for_each images createIfMissing s = Returns tt s' ->
  (forall key, key ∈ referenced images -> exists t, cache s' !! key = Some (Some t)) /\
  (forall key, key ∉ referenced images -> cache s' !! key = cache s !! key) /\
  (forall key t, cache s !! key = Some (Some t) -> cache s' !! key = Some (Some t)) /\
  ImageRenderer.program_ (this s') = ImageRenderer.program_ (this s) /\
  ImageRenderer.current_ (this s') = ImageRenderer.current_ (this s).
Proof.
  revert s. induction images as [|doc images IH]; intros s Hrun.
  - cbn in Hrun. injection Hrun as <-. repeat split; done.
  - rewrite for_each_cons in Hrun.
    apply bind_inv in Hrun as ([] & s1 & Hstep & Hrun).
    apply createIfMissing_returns in Hstep
      as ([t Ht] & Hother & Hkeep & _ & Hp & Hc).
    apply IH in Hrun as (Hall & Hout & Hkeep' & Hp' & Hc').
    repeat split.
    + intros key [->|Hin]%elem_of_referenced_cons; [|by apply Hall].
      exists t. by apply Hkeep'.
    + intros key Hnot. rewrite Hout, Hother; [done|..];
        intros ?; apply Hnot, elem_of_referenced_cons; auto.
    + intros key t' Hk. by apply Hkeep', Hkeep.
    + congruence.
    + congruence.
Qed.

Lemma create_loop_total images s :
  Forall (fun doc => ImageDocument.image doc <> None) images ->
  exists s', for_each images createIfMissing s = Returns tt s'.
Proof.
  intros Hall. revert s. induction Hall as [|doc images Hdoc _ IH]; intros s.
  - by exists s.
  - destruct (createIfMissing_total doc s Hdoc) as [s1 Hstep].
    destruct (IH s1) as [s' Hrun]. exists s'.
    by rewrite for_each_cons, (bind_returns _ _ _ _ _ Hstep).
Qed.

Lemma create_loop_skip images s :
  (forall key, key ∈ referenced images -> exists t, cache s !! key = Some (Some t)) ->
  for_each images createIfMissing s = Returns tt s.
Proof.
  intros Hall. apply for_each_skip. intros doc Hin.
  destruct (Hall _ (elem_of_referenced _ _ Hin)) as [t Ht].
  by eapply createIfMissing_present.
Qed.

(** [updateImages], split at the boundary between its two loops. *)
Lemma updateImages_split images s :
  exists s1 deleted,
    updateImages images s = for_each images createIfMissing s1 /\
    (forall key, cache s1 !! key =
                 if decide (key ∈ referenced images) then cache s !! key else None) /\
    ImageRenderer.program_ (this s1) = ImageRenderer.program_ (this s) /\
    ImageRenderer.current_ (this s1) = ImageRenderer.current_ (this s) /\
    ImageRenderer.renderRegion_ (this s1) = ImageRenderer.renderRegion_ (this s) /\
    ImageRenderer.clearColor_ (this s1) = ImageRenderer.clearColor_ (this s) /\
    ImageRenderer.settings_ (this s1) = ImageRenderer.settings_ (this s) /\
    next s1 = next s /\
    calls s1 = calls s ++ (Texture_delete <$> deleted).
Proof.
  destruct (erase_loop images (entries (cache s)) s)
    as (s1 & del & Hrun & Hgone & Hkept & Hrest).
  exists s1, del. split; [|split; [|exact Hrest]].
  - unfold updateImages.
    rewrite (bind_returns (gets ImageRenderer.textures_) _ s (cache s) s) by done.
    by rewrite (bind_returns _ _ _ _ _ Hrun).
  - intros key. case_decide as Hin.
    + by apply Hkept.
    + destruct (cache s !! key) as [tex|] eqn:Hlook.
      * apply Hgone; [|done].
        apply list_elem_of_fmap. exists (key, tex). split; [done|].
        by apply elem_of_entries.
      * rewrite Hkept; [done|].
        intros ((k & tex) & -> & Hin')%list_elem_of_fmap.
        apply elem_of_entries in Hin'. cbn in Hlook. congruence.
Qed.

Lemma updateImages_cache images s s' :
  updateImages images s = Returns tt s' ->
  (forall key, key ∈ referenced images -> exists t, cache s' !! key = Some (Some t)) /\
  (forall key, key ∉ referenced images -> cache s' !! key = None).
Proof.
  intros Hrun.
  destruct (updateImages_split images s) as (s1 & del & Heq & Hmap & _).
  rewrite Heq in Hrun.
  apply create_loop in Hrun as (Hall & Hout & _).
  split; [done|].
  intros key Hnot. rewrite Hout, Hmap by done. by case_decide.
Qed.

Lemma updateImages_returns images s :
  Forall (fun doc => ImageDocument.image doc <> None) images ->
  exists s', updateImages images s = Returns tt s'.
Proof.
  intros Hall.
  destruct (updateImages_split images s) as (s1 & del & Heq & _).
  rewrite Heq. by apply create_loop_total.
Qed.

(** On a cache that holds a texture for every referenced image and nothing
    else, [updateImages] changes nothing at all. *)
Lemma updateImages_fixpoint images s :
  (forall key, key ∈ referenced images -> exists t, cache s !! key = Some (Some t)) ->
  (forall key, key ∉ referenced images -> cache s !! key = None) ->
  updateImages images s = Returns tt s.
Proof.
  intros Hall Hout. unfold updateImages.
  rewrite (bind_returns (gets ImageRenderer.textures_) _ s (cache s) s) by done.
  rewrite (bind_returns _ _ s tt s).
  - by apply create_loop_skip.
  - apply for_each_skip. intros [key tex] Hin%elem_of_entries.
    unfold eraseIfUnreferenced. cbn [fst].
    destruct (find_if images (matchImage key)) eqn:Hfind; [done|].
    apply find_if_None, Hout in Hfind. congruence.
Qed.

(** C1. Whenever [updateImages images] returns, the keys of the texture map
    are exactly the image identities referenced by some document of
    [images]: each referenced image has an entry, which holds a texture, and
    no other image has one.  The call does return when no document carries
    an empty image pointer. *)
Theorem updateImages_keys images s :
  (Forall (fun doc => ImageDocument.image doc <> None) images ->
   exists s', updateImages images s = Returns tt s') /\
  (forall s', updateImages images s = Returns tt s' ->
     dom (cache s') = referenced images /\
     (forall key, key ∈ referenced images ->
                  exists t, cache s' !! key = Some (Some t)) /\
     (forall key, key ∉ referenced images -> cache s' !! key = None)).
Proof.
  split; [apply updateImages_returns|].
  intros s' Hrun.
  destruct (updateImages_cache _ _ _ Hrun) as [Hall Hout].
  split; [|done].
  apply set_eq. intros key. rewrite elem_of_dom. split.
  - intros [tex Htex].
    destruct (decide (key ∈ referenced images)) as [|Hnot]; [done|].
    rewrite (Hout _ Hnot) in Htex. discriminate.
  - intros Hin. destruct (Hall _ Hin) as [t Ht]. by rewrite Ht.
Qed.

(** C3. A second [updateImages] with the same document list, right after
    one that returned, returns as well, issues no GL call and allocates no
    object (so it creates and uploads no texture), and leaves every image of
    the list bound to the very texture it had. *)
Theorem updateImages_idempotent images s s1 :
  updateImages images s = Returns tt s1 ->
  exists s2,
    updateImages images s1 = Returns tt s2 /\
    calls s2 = calls s1 /\
    next s2 = next s1 /\
    cache s2 = cache s1.
Proof.
  intros Hrun. exists s1.
  destruct (updateImages_cache _ _ _ Hrun) as [Hall Hout].
  split; [|done]. by apply updateImages_fixpoint.
Qed.

(** The current image has a texture: [paint] draws and returns. *)
Lemma paint_hit s a image t :
  ImageRenderer.current_ (this s) = Some (a, image) ->
  cache s !! Some a = Some (Some t) ->
  paint s =
  Returns tt
    (mkState (this (after_setup s))
       (calls (after_setup s) ++ draw_calls (program_of s) t (this s) image)
       (next_after_setup s)).
Proof.
  destruct s as [[prog tex cur reg col set] cs n]. step_through.
  intros -> Hlook.
  destruct prog as [p|]; step_through; rewrite Hlook; step_through;
    by rewrite <- ?app_assoc.
Qed.

(** The current pointer is empty: [*current_] is undefined. *)
Lemma paint_no_current s :
  ImageRenderer.current_ (this s) = None ->
  paint s = Undefined (after_setup s).
Proof.
  destruct s as [[prog tex cur reg col set] cs n]. step_through. intros ->.
  destruct prog as [p|]; step_through; by rewrite <- ?app_assoc.
Qed.

(** The current image has an entry that holds no texture. *)
Lemma paint_null_entry s a image :
  ImageRenderer.current_ (this s) = Some (a, image) ->
  cache s !! Some a = Some None ->
  paint s = Undefined (after_setup s).
Proof.
  destruct s as [[prog tex cur reg col set] cs n]. step_through.
  intros -> Hlook.
  destruct prog as [p|]; step_through; rewrite Hlook; step_through;
    by rewrite <- ?app_assoc.
Qed.

(** The current image has no entry: [operator[]] makes one, empty, and the
    dereference of the empty texture pointer is undefined. *)
Lemma paint_miss s a image :
  ImageRenderer.current_ (this s) = Some (a, image) ->
  cache s !! Some a = None ->
  paint s =
  Undefined
    (mkState
       (ImageRenderer.set_textures_ (<[Some a := None]> (cache s))
          (this (after_setup s)))
       (calls (after_setup s)) (next_after_setup s)).
Proof.
  destruct s as [[prog tex cur reg col set] cs n]. step_through.
  intros -> Hlook.
  destruct prog as [p|]; step_through; rewrite Hlook; step_through;
    by rewrite <- ?app_assoc.
Qed.

(** [paint] returns only when the current image has a texture. *)
Lemma paint_returns_inv s s' :
  paint s = Returns tt s' ->
  exists a image t,
    ImageRenderer.current_ (this s) = Some (a, image) /\
    cache s !! Some a = Some (Some t) /\
    s' = mkState (this (after_setup s))
           (calls (after_setup s) ++ draw_calls (program_of s) t (this s) image)
           (next_after_setup s).
Proof.
  intros Hrun.
  destruct (ImageRenderer.current_ (this s)) as [[a image]|] eqn:Hcur.
  - destruct (cache s !! Some a) as [[t|]|] eqn:Hlook.
    + rewrite (paint_hit _ _ _ _ Hcur Hlook) in Hrun.
      injection Hrun as <-. by exists a, image, t.
    + by rewrite (paint_null_entry _ _ _ Hcur Hlook) in Hrun.
    + by rewrite (paint_miss _ _ _ Hcur Hlook) in Hrun.
  - by rewrite (paint_no_current _ Hcur) in Hrun.
Qed.

Lemma cache_after_setup s : cache (after_setup s) = cache s.
Proof. by destruct s as [[] ? ?]. Qed.

Lemma uniform_values_app name l1 l2 :
  uniform_values name (l1 ++ l2) = uniform_values name l1 ++ uniform_values name l2.
Proof.
  induction l1 as [|c l1 IH]; [done|].
  destruct c; cbn; try done. destruct (String.eqb name0 name); cbn; congruence.
Qed.

Lemma uniform_values_setup name s :
  uniform_values name (setup_calls s ++ bind_calls (program_of s)) = [].
Proof. unfold setup_calls. by destruct (ImageRenderer.program_ (this s)). Qed.

Lemma program_creations_app l1 l2 :
  program_creations (l1 ++ l2) = (program_creations l1 + program_creations l2)%nat.
Proof. unfold program_creations. by rewrite filter_app, length_app. Qed.

Lemma program_creations_snoc l c :
  is_Program_new c = false ->
  program_creations (l ++ [c]) = program_creations l.
Proof.
  intros Hc. rewrite program_creations_app. unfold program_creations at 2.
  rewrite filter_cons_False by (rewrite Hc; auto). cbn. lia.
Qed.

Lemma program_creations_setup s :
  program_creations (setup_calls s) =
  match ImageRenderer.program_ (this s) with Some _ => 0%nat | None => 1%nat end.
Proof. unfold setup_calls. by destruct (ImageRenderer.program_ (this s)). Qed.

Lemma program_creations_deletes l :
  program_creations (Texture_delete <$> l) = 0%nat.
Proof. by induction l. Qed.

(** What a returning [paint] does to the program. *)
Lemma paint_program s s' :
  paint s = Returns tt s' ->
  ImageRenderer.program_ (this s') = Some (program_of s) /\
  program_creations (calls s') =
  (program_creations (calls s) +
   match ImageRenderer.program_ (this s) with Some _ => 0 | None => 1 end)%nat.
Proof.
  intros (a & image & t & _ & _ & ->)%paint_returns_inv. split; [done|].
  unfold after_setup. cbn [calls].
  rewrite !program_creations_app, program_creations_setup.
  change (program_creations (bind_calls (program_of s))) with 0%nat.
  change (program_creations (draw_calls (program_of s) t (this s) image))
    with 0%nat.
  lia.
Qed.

Lemma createIfMissing_program_creations doc s s' :
  createIfMissing doc s = Returns tt s' ->
  program_creations (calls s') = program_creations (calls s).
Proof.
  destruct s as [[prog tex cur reg col set] cs n].
  destruct doc as [[[a img]|]]; step_through.
  - destruct (tex !! Some a) as [[t|]|]; step_through; intros [= <-];
      step_through; try done;
      by rewrite !program_creations_snoc.
  - destruct (tex !! None) as [[t|]|]; step_through; [|done..].
    by intros [= <-].
Qed.

Lemma updateImages_program images s s' :
  updateImages images s = Returns tt s' ->
  ImageRenderer.program_ (this s') = ImageRenderer.program_ (this s) /\
  program_creations (calls s') = program_creations (calls s).
Proof.
  intros Hrun.
  destruct (updateImages_split images s)
    as (s1 & del & Heq & _ & Hp & _ & _ & _ & _ & _ & Hcalls).
  rewrite Heq in Hrun. rewrite <- Hp.
  assert (program_creations (calls s1) = program_creations (calls s)) as <-.
  { rewrite Hcalls, program_creations_app, program_creations_deletes. lia. }
  clear Heq Hp Hcalls. revert s1 Hrun.
  induction images as [|doc images IH]; intros s1 Hrun.
  - by injection Hrun as <-.
  - rewrite for_each_cons in Hrun.
    apply bind_inv in Hrun as ([] & s2 & Hstep & Hrun).
    destruct (IH _ Hrun) as [-> ->].
    pose proof (createIfMissing_program_creations _ _ _ Hstep).
    apply createIfMissing_returns in Hstep as (_ & _ & _ & _ & Hp & _).
    by split.
Qed.

(** ** Sequences of calls on one renderer *)

Lemma run_cons op ops s :
  run (op :: ops) s = (step op ;; run ops) s.
Proof. reflexivity. Qed.

Lemma setCurrent_returns image s :
  setCurrent image s =
  Returns tt (mkState (ImageRenderer.set_current_ image (this s)) (calls s) (next s)).
Proof. reflexivity. Qed.

(** Outside [paint] nothing touches the program. *)
Lemma step_other_program op s s' :
  is_paint op = false ->
  step op s = Returns tt s' ->
  ImageRenderer.program_ (this s') = ImageRenderer.program_ (this s) /\
  program_creations (calls s') = program_creations (calls s).
Proof.
  destruct op as [image|images|]; cbn [step is_paint]; intros Hop Hstep.
  - rewrite setCurrent_returns in Hstep. by injection Hstep as <-.
  - by apply updateImages_program with images.
  - discriminate.
Qed.

(** Once the program exists, no call creates another or replaces it. *)
Lemma step_keeps_program op s s' p :
  ImageRenderer.program_ (this s) = Some p ->
  step op s = Returns tt s' ->
  ImageRenderer.program_ (this s') = Some p /\
  program_creations (calls s') = program_creations (calls s).
Proof.
  intros Hp Hstep. destruct (is_paint op) eqn:Hop.
  - destruct op; try discriminate. cbn [step] in Hstep.
    apply paint_program in Hstep as [Hp' Hn].
    unfold program_of in Hp'. rewrite Hp in Hp', Hn. split; [done|lia].
  - destruct (step_other_program _ _ _ Hop Hstep) as [-> ->]. by split.
Qed.

Lemma run_other_program ops s s' :
  Forall (fun op => is_paint op = false) ops ->
  run ops s = Returns tt s' ->
  ImageRenderer.program_ (this s') = ImageRenderer.program_ (this s) /\
  program_creations (calls s') = program_creations (calls s).
Proof.
  intros Hall. revert s. induction Hall as [|op ops Hop _ IH]; intros s Hrun.
  - by injection Hrun as <-.
  - rewrite run_cons in Hrun.
    apply bind_inv in Hrun as ([] & s1 & Hstep & Hrun).
    destruct (IH _ Hrun) as [-> ->].
    by apply step_other_program with op.
Qed.

Lemma run_keeps_program ops s s' p :
  ImageRenderer.program_ (this s) = Some p ->
  run ops s = Returns tt s' ->
  ImageRenderer.program_ (this s') = Some p /\
  program_creations (calls s') = program_creations (calls s).
Proof.
  revert s. induction ops as [|op ops IH]; intros s Hp Hrun.
  - by injection Hrun as <-.
  - rewrite run_cons in Hrun.
    apply bind_inv in Hrun as ([] & s1 & Hstep & Hrun).
    destruct (step_keeps_program _ _ _ _ Hp Hstep) as [Hp1 <-].
    by apply IH.
Qed.

(** ** The cache under paint *)

Lemma paint_cache s :
  is_Some (cache s !! get (ImageRenderer.current_ (this s))) ->
  cache (final (paint s)) = cache s.
Proof.
  destruct (ImageRenderer.current_ (this s)) as [[a image]|] eqn:Hcur.
  - cbn. intros [[t|] Hlook].
    + rewrite (paint_hit _ _ _ _ Hcur Hlook). cbn. apply cache_after_setup.
    + rewrite (paint_null_entry _ _ _ Hcur Hlook). cbn. apply cache_after_setup.
  - intros _. rewrite (paint_no_current _ Hcur). cbn. apply cache_after_setup.
Qed.

(** C2, amended. In every state whose texture map has an entry for the
    current image, [paint] leaves the map as it is: same keys, same
    textures.  [setCurrent] never writes the map either, which leaves
    [updateImages] as its only writer. *)
Theorem paint_leaves_cache s :
  is_Some (cache s !! get (ImageRenderer.current_ (this s))) ->
  cache (final (paint s)) = cache s /\
  dom (cache (final (paint s))) = dom (cache s) /\
  (forall image, cache (final (setCurrent image s)) = cache s).
Proof. intros H. by rewrite paint_cache. Qed.
Lemma updateImages_keeps_texture images s s' key t :
  key ∈ referenced images ->
  updateImages images s = Returns tt s' ->
  cache s !! key = Some (Some t) ->
  cache s' !! key = Some (Some t).
Proof.
  intros Hin Hrun Hlook.
  destruct (updateImages_split images s) as (s1 & del & Heq & Hmap & _).
  rewrite Heq in Hrun.
  apply create_loop in Hrun as (_ & _ & Hkeep & _).
  apply Hkeep. rewrite Hmap. by case_decide.
Qed.

Lemma step_keeps_texture key op s s' t :
  keeps key op ->
  step op s = Returns tt s' ->
  cache s !! key = Some (Some t) ->
  cache s' !! key = Some (Some t).
Proof.
  destruct op as [image|images|]; cbn [step keeps]; intros Hkeeps Hstep Hlook.
  - rewrite setCurrent_returns in Hstep. by injection Hstep as <-.
  - by eapply updateImages_keeps_texture.
  - apply paint_returns_inv in Hstep as (a & image & t' & _ & _ & ->).
    unfold cache. cbn. exact Hlook.
Qed.

Lemma run_keeps_texture key ops s s' t :
  Forall (keeps key) ops ->
  run ops s = Returns tt s' ->
  cache s !! key = Some (Some t) ->
  cache s' !! key = Some (Some t).
Proof.
  intros Hall. revert s. induction Hall as [|op ops Hop _ IH]; intros s Hrun Hlook.
  - by injection Hrun as <-.
  - rewrite run_cons in Hrun.
    apply bind_inv in Hrun as ([] & s1 & Hstep & Hrun).
    eapply IH; [done|]. by eapply step_keeps_texture.
Qed.

(** C8. After an [updateImages] whose list references the image at [a],
    and any further calls none of which is an [updateImages] that drops it,
    a [paint] with that image current finds its entry holding a texture,
    draws with that texture and returns.  Without such an entry there is no
    handling: with no entry, or an empty one, for the current image the
    dereference in [paint] is undefined behaviour. *)
Theorem paint_finds_texture :
  (forall s images s1 ops s2 a image,
      updateImages images s = Returns tt s1 ->
      Some a ∈ referenced images ->
      Forall (keeps (Some a)) ops ->
      run ops s1 = Returns tt s2 ->
      ImageRenderer.current_ (this s2) = Some (a, image) ->
      exists t s3,
        cache s1 !! Some a = Some (Some t) /\
        cache s2 !! Some a = Some (Some t) /\
        paint s2 = Returns tt s3 /\
        Texture_bind t 0 ∈ drop (length (calls s2)) (calls s3)) /\
  (forall s a image,
      ImageRenderer.current_ (this s) = Some (a, image) ->
      (forall t, cache s !! Some a <> Some (Some t)) ->
      exists s', paint s = Undefined s').
Proof.
  split.
  - intros s images s1 ops s2 a image Hupd Hin Hkeeps Hrun Hcur.
    destruct (updateImages_cache _ _ _ Hupd) as [Hall _].
    destruct (Hall _ Hin) as [t Ht].
    pose proof (run_keeps_texture _ _ _ _ _ Hkeeps Hrun Ht) as Ht2.
    exists t. eexists. split; [done|]. split; [done|].
    split; [by eapply paint_hit|].
    cbn. rewrite <- !app_assoc, drop_app_length.
    rewrite !elem_of_app. right. right. unfold draw_calls.
    apply elem_of_cons. right. by left.
  - intros s a image Hcur Hno.
    destruct (cache s !! Some a) as [[t|]|] eqn:Hlook.
    + by destruct (Hno t).
    + eexists. by eapply paint_null_entry.
    + eexists. by eapply paint_miss.
Qed.

(** ** Texture formats *)

(** C10. Whatever the channel count, [format] and [pixelFormat] pick the
    four-channel RGBA variants unless the count is exactly 3; the
    three-channel variants are picked exactly when it is 3. *)
Theorem format_rgba_unless_three image :
  (Image.channels image <> 3 ->
   format image = QOpenGLTexture.RGBAFormat /\
   pixelFormat image = QOpenGLTexture.RGBA) /\
  (format image = QOpenGLTexture.RGBFormat <-> Image.channels image = 3) /\
  (pixelFormat image = QOpenGLTexture.RGB <-> Image.channels image = 3).
Proof.
  unfold format, pixelFormat.
  destruct (decide (Image.channels image = 3)) as [Heq|Hne].
  - repeat split; done.
  - repeat split; try done; intros; discriminate.
Qed.

(** ** Single precision: zeros, exact scalings, subtraction *)

Module F32Facts.

Lemma add_neg_zero (x : float) : (x + - F32.zero)%f32 = x.
Proof. by destruct x as [[]|[]| |[] m e]. Qed.

Lemma add_zero (x : float) : x <> S754_zero true -> (x + F32.zero)%f32 = x.
Proof. by destruct x as [[]|[]| |[] m e]. Qed.

(** The quotient depends on the two exponents through their difference. *)
Lemma div_core_shift m1 e1 m2 e2 :
  SFdiv_core_binary F32.prec F32.emax m1 (e1 + -1) m2 e2 =
  SFdiv_core_binary F32.prec F32.emax m1 e1 m2 (e2 + 1).
Proof.
  unfold SFdiv_core_binary.
  replace (Zdigits2 m1 + (e1 + -1) - (Zdigits2 m2 + e2))
    with (Zdigits2 m1 + e1 - (Zdigits2 m2 + (e2 + 1))) by lia.
  replace (e1 + -1 - e2) with (e1 - (e2 + 1)) by lia.
  reflexivity.
Qed.

(** Dividing the exact half by [r] is dividing by the exact double. *)
Lemma div_half_double (x h r r2 : float) :
  F32.scaled (-1) x h = true -> F32.scaled 1 r r2 = true ->
  (h / r)%f32 = (x / r2)%f32.
Proof.
  intros Hx Hr.
  destruct x as [sx|sx| |sx mx ex], h as [sh|sh| |sh mh eh];
    try discriminate Hx;
    destruct r as [sr|sr| |sr mr er], r2 as [sr2|sr2| |sr2 mr2 er2];
    try discriminate Hr; cbn in Hx, Hr;
    repeat match goal with
      | H : _ && _ = true |- _ => apply andb_prop in H as [? ?]
      | H : Bool.eqb _ _ = true |- _ => apply Bool.eqb_prop in H
      | H : (_ =? _)%positive = true |- _ => apply Pos.eqb_eq in H
      | H : (_ =? _) = true |- _ => apply Z.eqb_eq in H
      end; subst; try reflexivity.
  unfold F32.div, SFdiv. by rewrite div_core_shift.
Qed.

(** Shifting a mantissa right by fewer places than it has digits leaves a
    positive mantissa. *)
Lemma shr_1_positive p r s :
  1 < Zpos (digits2_pos p) ->
  exists q r' s',
    shr_1 (Build_shr_record (Zpos p) r s) = Build_shr_record (Zpos q) r' s' /\
    Zpos (digits2_pos q) = Zpos (digits2_pos p) - 1.
Proof.
  destruct p as [q|q|]; cbn [digits2_pos shr_1]; intros H.
  - exists q, true, (r || s). split; [done|lia].
  - exists q, false, (r || s). split; [done|lia].
  - lia.
Qed.

Lemma iter_shr_1_positive k : forall p r s,
  Zpos k < Zpos (digits2_pos p) ->
  exists q r' s',
    SpecFloat.iter_pos shr_1 k (Build_shr_record (Zpos p) r s)
    = Build_shr_record (Zpos q) r' s' /\
    Zpos (digits2_pos q) = Zpos (digits2_pos p) - Zpos k.
Proof.
  induction k as [k IH|k IH|]; intros p r s Hk; cbn [SpecFloat.iter_pos].
  - destruct (shr_1_positive p r s) as (q0 & r0 & s0 & -> & H0); [lia|].
    destruct (IH q0 r0 s0) as (q1 & r1 & s1 & -> & H1); [lia|].
    destruct (IH q1 r1 s1) as (q2 & r2 & s2 & -> & H2); [lia|].
    exists q2, r2, s2. split; [reflexivity|lia].
  - destruct (IH p r s) as (q1 & r1 & s1 & -> & H1); [lia|].
    destruct (IH q1 r1 s1) as (q2 & r2 & s2 & -> & H2); [lia|].
    exists q2, r2, s2. split; [reflexivity|lia].
  - destruct (shr_1_positive p r s) as (q0 & r0 & s0 & -> & H0); [lia|].
    exists q0, r0, s0. split; [reflexivity|lia].
Qed.

(** Above the smallest exponent, the shift to the target exponent never
    empties the mantissa. *)
Lemma shr_fexp_positive p e l :
  emin F32.prec F32.emax <= e ->
  exists q,
    shr_m (fst (shr_fexp F32.prec F32.emax (Zpos p) e l)) = Zpos q /\
    emin F32.prec F32.emax <= snd (shr_fexp F32.prec F32.emax (Zpos p) e l).
Proof.
  intros He. unfold shr_fexp, shr. cbn [Zdigits2].
  assert (shr_record_of_loc (Zpos p) l =
          Build_shr_record (Zpos p) (shr_r (shr_record_of_loc (Zpos p) l))
            (shr_s (shr_record_of_loc (Zpos p) l))) as Hrec
    by (destruct l as [|[]]; reflexivity).
  destruct (fexp F32.prec F32.emax (Zpos (digits2_pos p) + e) - e)
    as [|k|k] eqn:Hn.
  - exists p. split; [by rewrite Hrec|done].
  - rewrite Hrec.
    destruct (iter_shr_1_positive k p
                (shr_r (shr_record_of_loc (Zpos p) l))
                (shr_s (shr_record_of_loc (Zpos p) l)))
      as (q & r' & s' & -> & _).
    + unfold fexp, emin, F32.prec, F32.emax in *. lia.
    + exists q. split; [reflexivity|]. cbn [snd]. lia.
  - exists p. split; [by rewrite Hrec|done].
Qed.

Lemma round_nearest_even_positive p l :
  exists q, round_nearest_even (Zpos p) l = Zpos q.
Proof.
  destruct l as [|[]]; cbn [round_nearest_even];
    try destruct (Z.even (Zpos p)); cbn; eauto.
Qed.

(** Rounding a nonzero value whose exponent is in range never gives a
    zero. *)
Lemma binary_round_aux_nonzero s p e l s' :
  emin F32.prec F32.emax <= e ->
  binary_round_aux F32.prec F32.emax s (Zpos p) e l <> S754_zero s'.
Proof.
  intros He. unfold binary_round_aux.
  destruct (shr_fexp_positive p e l He) as (q1 & Hq1 & He1).
  destruct (shr_fexp F32.prec F32.emax (Zpos p) e l) as [mrs1 e1].
  cbn [fst snd] in *. rewrite Hq1.
  destruct (round_nearest_even_positive q1 (loc_of_shr_record mrs1)) as [q2 ->].
  destruct (shr_fexp_positive q2 e1 loc_Exact He1) as (q3 & Hq3 & _).
  destruct (shr_fexp F32.prec F32.emax (Zpos q2) e1 loc_Exact) as [mrs2 e2].
  cbn [fst snd] in *. rewrite Hq3.
  by destruct (e2 <=? F32.emax - F32.prec).
Qed.

Lemma binary_round_nonzero s p e s' :
  emin F32.prec F32.emax <= e ->
  binary_round F32.prec F32.emax s p e <> S754_zero s'.
Proof.
  intros He. unfold binary_round.
  destruct (shl_align p e (fexp F32.prec F32.emax (Zpos (digits2_pos p) + e)))
    as [mz ez] eqn:Hal.
  apply binary_round_aux_nonzero.
  unfold shl_align in Hal.
  destruct (fexp F32.prec F32.emax (Zpos (digits2_pos p) + e) - e) eqn:Hd;
    injection Hal as <- <-; try done.
  unfold fexp. lia.
Qed.

Lemma valid_emin s m e :
  F32.valid (S754_finite s m e) = true -> emin F32.prec F32.emax <= e.
Proof.
  unfold F32.valid. cbn. unfold bounded, canonical_mantissa.
  intros [H _]%andb_prop. apply Z.eqb_eq in H. unfold fexp in H. lia.
Qed.

(** A difference of floats is the negative zero only as [-0 - +0]. *)
Lemma sub_negative_zero (x y : float) :
  F32.valid x = true -> F32.valid y = true ->
  (x - y)%f32 = S754_zero true ->
  x = S754_zero true /\ y = S754_zero false.
Proof.
  intros Hx Hy.
  unfold F32.sub.
  destruct x as [[]|[]| |sx mx ex], y as [[]|[]| |sy my ey]; cbn; try done.
  apply valid_emin in Hx, Hy.
  unfold binary_normalize.
  destruct (_ - _) as [|m|m]; [done|..]; intros H; exfalso;
    revert H; apply binary_round_nonzero; lia.
Qed.

Lemma scaled_finite k s m e e' :
  e' = e + k ->
  F32.scaled k (S754_finite s m e) (S754_finite s m e') = true.
Proof.
  intros ->. cbn. by rewrite Bool.eqb_reflx, Pos.eqb_refl, Z.eqb_refl.
Qed.

(** A mantissa followed by [k] zero bits. *)
Lemma digits2_pos_trailing_zeros k : forall m,
  Zpos (digits2_pos (Pos.iter xO m k)) = Zpos (digits2_pos m) + Zpos k.
Proof.
  induction k as [k IH|k IH|]; intros m; cbn [Pos.iter digits2_pos].
  - rewrite Pos2Z.inj_succ, !IH. lia.
  - rewrite !IH. lia.
  - lia.
Qed.

Lemma iter_shr_1_trailing_zeros k : forall m,
  SpecFloat.iter_pos shr_1 k
    (Build_shr_record (Zpos (Pos.iter xO m k)) false false)
  = Build_shr_record (Zpos m) false false.
Proof.
  induction k as [k IH|k IH|]; intros m;
    cbn [Pos.iter SpecFloat.iter_pos shr_1 orb].
  - by rewrite !IH.
  - by rewrite !IH.
  - done.
Qed.

(** Rounding is the identity on a full mantissa with an exponent in
    range, also when the mantissa comes with trailing zero bits. *)
Lemma round_normal s m e :
  Zpos (digits2_pos m) = F32.prec ->
  emin F32.prec F32.emax <= e -> e <= F32.emax - F32.prec ->
  binary_round_aux F32.prec F32.emax s (Zpos m) e loc_Exact
  = S754_finite s m e.
Proof.
  unfold F32.prec, F32.emax, emin. intros Hd He1 He2.
  unfold binary_round_aux, shr_fexp. cbn [Zdigits2 shr_record_of_loc].
  rewrite Hd.
  replace (fexp 24 128 (24 + e) - e) with 0 by (unfold fexp, emin; lia).
  cbn [shr shr_m loc_of_shr_record round_nearest_even Zdigits2
       shr_record_of_loc].
  rewrite Hd.
  replace (fexp 24 128 (24 + e) - e) with 0 by (unfold fexp, emin; lia).
  cbn [shr shr_m].
  by replace (e <=? 128 - 24) with true by (symmetry; apply Z.leb_le; lia).
Qed.

Lemma round_trailing_zeros s m e k :
  Zpos (digits2_pos m) = F32.prec ->
  emin F32.prec F32.emax <= e -> e <= F32.emax - F32.prec ->
  binary_round_aux F32.prec F32.emax s (Zpos (Pos.iter xO m k))
    (e - Zpos k) loc_Exact
  = S754_finite s m e.
Proof.
  unfold F32.prec, F32.emax, emin. intros Hd He1 He2.
  unfold binary_round_aux, shr_fexp. cbn [Zdigits2 shr_record_of_loc].
  rewrite digits2_pos_trailing_zeros, Hd.
  replace (fexp 24 128 (24 + Zpos k + (e - Zpos k)) - (e - Zpos k))
    with (Zpos k) by (unfold fexp, emin; lia).
  cbn [shr]. rewrite iter_shr_1_trailing_zeros.
  cbn [shr_m loc_of_shr_record round_nearest_even Zdigits2 shr_record_of_loc].
  rewrite Hd.
  replace (fexp 24 128 (24 + (e - Zpos k + Zpos k)) - (e - Zpos k + Zpos k))
    with 0 by (unfold fexp, emin; lia).
  cbn [shr shr_m].
  replace (e - Zpos k + Zpos k <=? 128 - 24) with true
    by (symmetry; apply Z.leb_le; lia).
  f_equal. lia.
Qed.

Lemma div_eucl_exact q b :
  Z.div_eucl (Zpos q * Zpos b) (Zpos b) = (Zpos q, 0).
Proof.
  pose proof (Z.div_mul (Zpos q) (Zpos b)) as Hq.
  pose proof (Z.mod_mul (Zpos q) (Zpos b)) as Hr.
  unfold Z.div, Z.modulo in Hq, Hr.
  destruct (Z.div_eucl (Zpos q * Zpos b) (Zpos b)) as [q' r'].
  rewrite Hq, Hr; done.
Qed.

(** The quotient of a normal mantissa by the mantissa of [2.0f]: twice the
    mantissa two exponents below, or in the lowest binade but one the
    mantissa itself at the smallest exponent. *)
Lemma div_core_two m e :
  Zpos (digits2_pos m) = F32.prec -> emin F32.prec F32.emax + 2 <= e ->
  SFdiv_core_binary F32.prec F32.emax (Zpos m) e (Zpos 8388608) (-22)
  = (Zpos (Pos.iter xO m 1), e - 1 - 1, loc_Exact).
Proof.
  unfold F32.prec, F32.emax, emin. intros Hd He.
  unfold SFdiv_core_binary. cbn [Zdigits2]. rewrite Hd.
  change (Zpos (digits2_pos 8388608)) with 24.
  replace (Z.min (fexp 24 128 (24 + e - (24 + -22))) (e - -22))
    with (e - 1 - 1) by (unfold fexp, emin; lia).
  replace (e - -22 - (e - 1 - 1)) with 24 by lia.
  rewrite Z.shiftl_mul_pow2 by lia.
  replace (Zpos m * 2 ^ 24) with (Zpos m~0 * Zpos 8388608) by lia.
  by rewrite div_eucl_exact.
Qed.

Lemma div_core_two_low m :
  Zpos (digits2_pos m) = F32.prec ->
  SFdiv_core_binary F32.prec F32.emax (Zpos m) (-148) (Zpos 8388608) (-22)
  = (Zpos m, -149, loc_Exact).
Proof.
  unfold F32.prec, F32.emax. intros Hd.
  unfold SFdiv_core_binary. cbn [Zdigits2]. rewrite Hd.
  change (Zpos (digits2_pos 8388608)) with 24.
  change (Z.min (fexp 24 128 (24 + -148 - (24 + -22))) (-148 - -22))
    with (-149).
  change (-148 - -22 - -149) with 23.
  rewrite Z.shiftl_mul_pow2 by lia.
  change (2 ^ 23) with (Zpos 8388608).
  by rewrite div_eucl_exact.
Qed.

(** Halving and doubling on the safe ranges only move the exponent. *)
Lemma halving_safe_exact (x : float) :
  F32.halving_safe x = true -> F32.halves_exactly x = true.
Proof.
  destruct x as [[]|[]| |s m e]; try done.
  unfold F32.halving_safe, F32.normal_between, F32.prec, F32.emax, emin.
  intros [[Hd%Z.eqb_eq He1%Z.leb_le]%andb_prop He2%Z.leb_le]%andb_prop.
  unfold F32.halves_exactly, F32.div, F32.two, SFdiv.
  destruct (decide (e = -148)) as [->|Hne].
  - rewrite div_core_two_low by done.
    rewrite round_normal by done.
    destruct s; by apply scaled_finite.
  - rewrite div_core_two by (unfold emin, F32.prec, F32.emax; done || lia).
    rewrite round_trailing_zeros;
      [|done|unfold emin, F32.prec, F32.emax in *; lia..].
    destruct s; by apply scaled_finite.
Qed.

Lemma doubling_safe_exact (x : float) :
  F32.doubling_safe x = true -> F32.doubles_exactly x = true.
Proof.
  destruct x as [[]|[]| |s m e]; try done.
  unfold F32.doubling_safe, F32.normal_between, F32.prec, F32.emax, emin.
  intros [[Hd%Z.eqb_eq He1%Z.leb_le]%andb_prop He2%Z.leb_le]%andb_prop.
  unfold F32.doubles_exactly, F32.mul, F32.two, SFmul.
  change (Zpos (8388608 * m)) with (Zpos (Pos.iter xO m 23)).
  replace (-22 + e) with (e + 1 - 23) by lia.
  rewrite round_trailing_zeros;
    [|done|unfold emin, F32.prec, F32.emax in *; lia..].
  by apply scaled_finite.
Qed.

Lemma doubling_safe_valid (x : float) :
  F32.doubling_safe x = true -> F32.valid x = true.
Proof.
  destruct x as [[]|[]| |s m e]; try done.
  unfold F32.doubling_safe, F32.normal_between, F32.prec, F32.emax, emin.
  intros [[Hd%Z.eqb_eq He1%Z.leb_le]%andb_prop He2%Z.leb_le]%andb_prop.
  unfold F32.valid, valid_binary, bounded, canonical_mantissa.
  apply andb_true_intro. split.
  - apply Z.eqb_eq. rewrite Hd. unfold fexp, emin, F32.prec, F32.emax. lia.
  - apply Z.leb_le. unfold F32.prec, F32.emax. lia.
Qed.

End F32Facts.

(** C4, as stated, fails in single precision: with a region size of 2^127
    the doubled size is infinite and the quotient by it is 0, while the code
    halves first and returns 1/2. *)
Lemma texturePosition_zero_pan_overflow :
  texturePosition huge_region no_image zero_pan =
    QVector2D.make F32.half F32.half /\
  QVector2D.div (QVector2D.sub huge_region no_image)
                (QVector2D.mulf F32.two huge_region) =
    QVector2D.make F32.zero F32.zero /\
  ~ (forall regionSize imageSize,
        texturePosition regionSize imageSize zero_pan =
        QVector2D.div (QVector2D.sub regionSize imageSize)
                      (QVector2D.mulf F32.two regionSize)).
Proof.
  split; [by vm_compute|]. split; [by vm_compute|].
  intros H. specialize (H huge_region no_image). vm_compute in H. discriminate.
Qed.

(** The zero-pan identity under exactness of the two scalings. *)
Lemma texturePosition_zero_pan_exact rx ry ix iy :
  F32.valid ry = true -> F32.valid iy = true ->
  F32.halves_exactly (rx - ix)%f32 = true ->
  F32.halves_exactly (ry - iy)%f32 = true ->
  F32.doubles_exactly rx = true ->
  F32.doubles_exactly ry = true ->
  texturePosition (QVector2D.make rx ry) (QVector2D.make ix iy) zero_pan =
  QVector2D.div (QVector2D.sub (QVector2D.make rx ry) (QVector2D.make ix iy))
                (QVector2D.mulf F32.two (QVector2D.make rx ry)).
Proof.
  intros Hvr Hvi Hx Hy Hrx Hry.
  unfold texturePosition, QVector2D.div, QVector2D.add, QVector2D.divf,
    QVector2D.sub, QVector2D.mulf, zero_pan.
  cbn [QVector2D.x QVector2D.y].
  rewrite F32Facts.add_neg_zero. f_equal.
  - by apply F32Facts.div_half_double.
  - destruct (decide ((ry - iy)%f32 = S754_zero true)) as [Hz|Hnz].
    + rewrite Hz.
      apply F32Facts.sub_negative_zero in Hz as [-> ->]; [|done..].
      reflexivity.
    + rewrite F32Facts.add_zero; [by apply F32Facts.div_half_double|].
      intros Hh. unfold F32.halves_exactly in Hy. rewrite Hh in Hy.
      destruct (ry - iy)%f32 as [[]| | |]; try discriminate. by apply Hnz.
Qed.

(** C4, amended. In single-precision arithmetic [texturePosition] is
    [((regionSize - imageSize) / 2 + (-pan.x, pan.y)) / regionSize], the
    horizontal pan negated and the vertical one not.  For a zero pan this is
    [(regionSize - imageSize) / (2 * regionSize)] whenever each component of
    the difference is a zero, an infinity, a NaN or a normal float of
    magnitude at least 2^-125, and each component of the region size a
    zero, an infinity, a NaN or a normal float of magnitude below 2^127:
    then the halving does not underflow and the doubling does not
    overflow. *)
Theorem texturePosition_spec regionSize imageSize pan :
  texturePosition regionSize imageSize pan =
    QVector2D.make
      (((QVector2D.x regionSize - QVector2D.x imageSize) / F32.two
        + - QVector2D.x pan) / QVector2D.x regionSize)%f32
      (((QVector2D.y regionSize - QVector2D.y imageSize) / F32.two
        + QVector2D.y pan) / QVector2D.y regionSize)%f32 /\
  (pan = zero_pan ->
   F32.valid (QVector2D.y imageSize) = true ->
   F32.halving_safe (QVector2D.x regionSize - QVector2D.x imageSize)%f32 = true ->
   F32.halving_safe (QVector2D.y regionSize - QVector2D.y imageSize)%f32 = true ->
   F32.doubling_safe (QVector2D.x regionSize) = true ->
   F32.doubling_safe (QVector2D.y regionSize) = true ->
   texturePosition regionSize imageSize pan =
   QVector2D.div (QVector2D.sub regionSize imageSize)
                 (QVector2D.mulf F32.two regionSize)).
Proof.
  split; [reflexivity|].
  destruct regionSize as [rx ry], imageSize as [ix iy].
  cbn [QVector2D.x QVector2D.y].
  intros -> Hvi Hx Hy Hrx Hry.
  apply texturePosition_zero_pan_exact;
    auto using F32Facts.halving_safe_exact, F32Facts.doubling_safe_exact,
      F32Facts.doubling_safe_valid.
Qed.

(** C5. [textureScale] is the componentwise quotient of the image size by
    the region size; the image size [paint] passes is the image's width and
    height, each converted to [float] and multiplied by [settings.scale], and
    the quotient is what the shader receives as [scale].  With a region of
    800 by 600 and an image of 400 by 600 at scale 1.0 it is (0.5, 1.0). *)
Theorem textureScale_spec :
  (forall regionSize imageSize,
      textureScale regionSize imageSize =
      QVector2D.make (QVector2D.x imageSize / QVector2D.x regionSize)%f32
                     (QVector2D.y imageSize / QVector2D.y regionSize)%f32) /\
  (forall s s',
      paint s = Returns tt s' ->
      exists a image,
        ImageRenderer.current_ (this s) = Some (a, image) /\
        let settings := ImageRenderer.settings_ (this s) in
        let imageSize :=
          QVector2D.make
            (F32.of_int (Image.width image) * ImageSettings.scale settings)%f32
            (F32.of_int (Image.height image) * ImageSettings.scale settings)%f32 in
        uniform_values "scale" (drop (length (calls s)) (calls s')) =
        [UVec2 (textureScale (regionSize_of (ImageRenderer.renderRegion_ (this s)))
                  imageSize)]) /\
  textureScale
    (QVector2D.make (F32.of_int 800) (F32.of_int 600))
    (QVector2D.make (F32.of_int 400 * F32.one)%f32 (F32.of_int 600 * F32.one)%f32) =
  QVector2D.make F32.half F32.one.
Proof.
  split; [reflexivity|]. split; [|by vm_compute].
  intros s s' (a & image & t & Hcur & _ & ->)%paint_returns_inv.
  exists a, image. split; [done|].
  cbn. rewrite <- !app_assoc, drop_app_length.
  rewrite app_assoc, uniform_values_app, uniform_values_setup. reflexivity.
Qed.

(** C6. The value [paint] gives to the uniform [gamma] is
    [1.0f / settings.gamma], for a positive gamma as for any other:
    0.5 for a gamma of 2.0 and 1.0 for a gamma of 1.0. *)
Theorem gamma_uniform :
  (forall s s',
      paint s = Returns tt s' ->
      uniform_values "gamma" (drop (length (calls s)) (calls s')) =
      [UFloat (F32.one / ImageSettings.gamma (ImageRenderer.settings_ (this s)))%f32]) /\
  (F32.one / F32.two)%f32 = F32.half /\
  (F32.one / F32.one)%f32 = F32.one.
Proof.
  split; [|split; by vm_compute].
  intros s s' (a & image & t & Hcur & _ & ->)%paint_returns_inv.
  cbn. rewrite <- !app_assoc, drop_app_length.
  rewrite app_assoc, uniform_values_app, uniform_values_setup. reflexivity.
Qed.

(** C9. The fragment stage samples the texture at
    [(coords - position) / scale], raises the red, green and blue of the
    sample to the power [gamma], each on its own, and outputs them with the
    alpha of the sample as it is.  The vertex stage passes the vertex on as
    the clip-space position and hands [vertices * 0.5 + 0.5] to the fragment
    stage as [coords]; on the four corners of the quad, whose components are
    -1 and 1, that is 0 and 1. *)
Theorem shader_stages :
  (forall F fsub fdiv fpow sampler2D texture2D tex position scale gamma coords,
      GLSL.fragment_main F fsub fdiv fpow sampler2D texture2D tex
        position scale gamma coords =
      let texel :=
        texture2D tex
          (GLSL.Vec2 (fdiv (fsub (GLSL.x2 coords) (GLSL.x2 position)) (GLSL.x2 scale))
                     (fdiv (fsub (GLSL.y2 coords) (GLSL.y2 position)) (GLSL.y2 scale))) in
      GLSL.Vec4 (fpow (GLSL.x4 texel) gamma) (fpow (GLSL.y4 texel) gamma)
                (fpow (GLSL.z4 texel) gamma) (GLSL.w4 texel)) /\
  (forall F fadd fmul lit0 lit1 lit_half vertices,
      let out := GLSL.vertex_main F fadd fmul lit0 lit1 lit_half vertices in
      GLSL.gl_Position out =
        GLSL.Vec4 (GLSL.x2 vertices) (GLSL.y2 vertices) lit0 lit1 /\
      GLSL.coords out =
        GLSL.Vec2 (fadd (fmul (GLSL.x2 vertices) lit_half) lit_half)
                  (fadd (fmul (GLSL.y2 vertices) lit_half) lit_half)) /\
  (GLSL.coords <$> (vertex_main_f32 <$> pairs vertexData)) =
    [GLSL.Vec2 F32.zero F32.zero; GLSL.Vec2 F32.one F32.zero;
     GLSL.Vec2 F32.zero F32.one; GLSL.Vec2 F32.one F32.one].
Proof.
  split; [|split].
  - reflexivity.
  - intros. split; reflexivity.
  - vm_compute. reflexivity.
Qed.

(** ** The properties on the session *)

Lemma updateImages_keys_session :
  dom (cache Session.both_open)
  = referenced [Session.doc_a; Session.doc_b; Session.doc_a].
Proof.
  destruct (updateImages_keys [Session.doc_a; Session.doc_b; Session.doc_a]
              Session.fresh) as [_ Hkeys].
  destruct (Hkeys Session.both_open) as [Hdom _].
  - vm_compute. reflexivity.
  - exact Hdom.
Defined.

Lemma updateImages_idempotent_session :
  exists s2,
    updateImages [Session.doc_a; Session.doc_b; Session.doc_a] Session.both_open
    = Returns tt s2 /\
    calls s2 = calls Session.both_open /\
    next s2 = next Session.both_open /\
    cache s2 = cache Session.both_open.
Proof.
  apply (updateImages_idempotent _ Session.fresh).
  vm_compute. reflexivity.
Defined.

Lemma paint_leaves_cache_session :
  cache (final (paint Session.ready)) = cache Session.ready /\
  dom (cache (final (paint Session.ready))) = dom (cache Session.ready) /\
  (forall image, cache (final (setCurrent image Session.ready))
                 = cache Session.ready).
Proof.
  apply paint_leaves_cache. exists (Some 0%N). vm_compute. reflexivity.
Defined.

(** C2, as stated, fails: with a current image that has no entry, the
    lookup [textures_[current_]] in [paint] adds a key to the map. *)
Lemma paint_adds_key_on_miss :
  cache Session.unprepared = ∅ /\
  cache (final (paint Session.unprepared)) = {[ Some 1%positive := None ]} /\
  dom (cache (final (paint Session.unprepared))) <> dom (cache Session.unprepared).
Proof.
  split; [by vm_compute|]. split; [by vm_compute|].
  intros H.
  apply (f_equal (fun X : gset ptr => bool_decide (Some 1%positive ∈ X))) in H.
  vm_compute in H. discriminate.
Qed.

Lemma texturePosition_spec_800x600 :
  texturePosition
    (QVector2D.make (F32.of_int 800) (F32.of_int 600))
    (QVector2D.make (F32.of_int 400) (F32.of_int 600)) zero_pan
  = QVector2D.div
      (QVector2D.sub (QVector2D.make (F32.of_int 800) (F32.of_int 600))
                     (QVector2D.make (F32.of_int 400) (F32.of_int 600)))
      (QVector2D.mulf F32.two (QVector2D.make (F32.of_int 800) (F32.of_int 600))).
Proof.
  apply texturePosition_spec; reflexivity.
Defined.

Lemma textureScale_spec_session :
  exists a image,
    ImageRenderer.current_ (this Session.ready) = Some (a, image) /\
    uniform_values "scale"
      (drop (length (calls Session.ready)) (calls Session.painted)) =
    [UVec2 (textureScale
              (regionSize_of (ImageRenderer.renderRegion_ (this Session.ready)))
              (QVector2D.make
                 (F32.of_int (Image.width image)
                  * ImageSettings.scale (ImageRenderer.settings_ (this Session.ready)))%f32
                 (F32.of_int (Image.height image)
                  * ImageSettings.scale (ImageRenderer.settings_ (this Session.ready)))%f32))].
Proof.
  destruct textureScale_spec as (_ & Hpaint & _).
  apply (Hpaint Session.ready Session.painted).
  vm_compute. reflexivity.
Defined.

Lemma gamma_uniform_session :
  uniform_values "gamma"
    (drop (length (calls Session.ready)) (calls Session.painted)) =
  [UFloat F32.half].
Proof.
  destruct gamma_uniform as (Hpaint & _ & _).
  rewrite (Hpaint Session.ready Session.painted).
  - vm_compute. reflexivity.
  - vm_compute. reflexivity.
Defined.

Lemma paint_finds_texture_session :
  (exists t s3,
      cache Session.both_open !! Some 1%positive = Some (Some t) /\
      cache Session.ready !! Some 1%positive = Some (Some t) /\
      paint Session.ready = Returns tt s3 /\
      Texture_bind t 0 ∈ drop (length (calls Session.ready)) (calls s3)) /\
  (exists s', paint Session.unprepared = Undefined s').
Proof.
  destruct paint_finds_texture as [Hhit Hmiss]. split.
  - apply (Hhit Session.fresh [Session.doc_a; Session.doc_b; Session.doc_a]
             Session.both_open [OpSetCurrent Session.image_a]
             Session.ready 1%positive Session.rgb_2x1).
    + vm_compute. reflexivity.
    + vm_compute. reflexivity.
    + repeat constructor.
    + vm_compute. reflexivity.
    + reflexivity.
  - apply (Hmiss Session.unprepared 1%positive Session.rgb_2x1).
    + reflexivity.
    + intros t. vm_compute. discriminate.
Defined.

Lemma format_rgba_unless_three_session :
  format Session.rgba_1x1 = QOpenGLTexture.RGBAFormat /\
  pixelFormat Session.rgba_1x1 = QOpenGLTexture.RGBA.
Proof.
  apply (format_rgba_unless_three Session.rgba_1x1). cbn. lia.
Defined.

(** * Further properties *)

(** ** Closed forms of the two loop bodies *)

Lemma new_calls_app s s' cs :
  calls s' = calls s ++ cs -> new_calls s s' = cs.
Proof. intros H. unfold new_calls. by rewrite H, drop_app_length. Qed.

Lemma eraseIfUnreferenced_cases images entry s :
  eraseIfUnreferenced images entry s =
  Returns tt
    (if decide (entry.1 ∈ referenced images) then s
     else mkState
            (ImageRenderer.set_textures_ (delete entry.1 (cache s)) (this s))
            (calls s ++ (Texture_delete <$> option_list entry.2))
            (next s)).
Proof.
  destruct entry as [key tex]. unfold eraseIfUnreferenced. cbn [fst snd].
  destruct (find_if images (matchImage key)) eqn:Hfind.
  - rewrite decide_True; [done|].
    destruct (decide (key ∈ referenced images)) as [|Hn]; [done|].
    apply find_if_None in Hn. congruence.
  - apply find_if_None in Hfind. rewrite decide_False by done.
    destruct s as [r cs n], tex as [t|]; step_through; cbn;
      rewrite ?app_nil_r; reflexivity.
Qed.

Lemma createIfMissing_cases doc s s' :
  createIfMissing doc s = Returns tt s' ->
  (s' = s /\ has_texture (cache s) (get (ImageDocument.image doc)) = true) \/
  (exists a image,
      ImageDocument.image doc = Some (a, image) /\
      has_texture (cache s) (Some a) = false /\
      s' = mkState
             (ImageRenderer.set_textures_
                (<[Some a := Some (next s)]> (cache s)) (this s))
             (calls s ++ texture_calls (next s) image)
             (N.succ (next s))).
Proof.
  destruct s as [[prog tex cur reg col set] cs n].
  destruct doc as [[[a img]|]]; unfold has_texture; step_through.
  - destruct (tex !! Some a) as [[t|]|] eqn:Hlook; step_through;
      intros [= <-]; [by left|right..]; exists a, img;
      (split; [done|]); (split; [by rewrite Hlook|]);
      rewrite <- ?app_assoc, ?insert_insert_eq; reflexivity.
  - destruct (tex !! None) as [[t|]|] eqn:Hlook; step_through; [|done..].
    intros [= <-]. by left.
Qed.

(** ** The log of updateImages *)

Lemma erase_loop_calls images l s s1 :
  for_each l (eraseIfUnreferenced images) s = Returns tt s1 ->
  calls s1 =
  calls s ++ (Texture_delete <$>
                omap snd (filter (fun entry => entry.1 ∉ referenced images) l)).
Proof.
  revert s. induction l as [|entry l IH]; intros s Hrun.
  - injection Hrun as <-. cbn. by rewrite app_nil_r.
  - rewrite for_each_cons in Hrun.
    rewrite (bind_returns _ _ _ _ _ (eraseIfUnreferenced_cases images entry s))
      in Hrun.
    apply IH in Hrun. rewrite Hrun. rewrite filter_cons.
    destruct (decide (entry.1 ∈ referenced images)) as [Hin|Hnot].
    + by rewrite decide_False by (intros Hn; by apply Hn).
    + rewrite decide_True by done. cbn [calls].
      rewrite <- app_assoc. f_equal.
      destruct entry as [key [t|]]; reflexivity.
Qed.

(** [updateImages] at the boundary between its loops, with the exact log
    of the first. *)
Lemma updateImages_phases images s :
  exists s1,
    updateImages images s = for_each images createIfMissing s1 /\
    (forall key, cache s1 !! key =
                 if decide (key ∈ referenced images) then cache s !! key else None) /\
    ImageRenderer.program_ (this s1) = ImageRenderer.program_ (this s) /\
    ImageRenderer.current_ (this s1) = ImageRenderer.current_ (this s) /\
    ImageRenderer.renderRegion_ (this s1) = ImageRenderer.renderRegion_ (this s) /\
    ImageRenderer.clearColor_ (this s1) = ImageRenderer.clearColor_ (this s) /\
    ImageRenderer.settings_ (this s1) = ImageRenderer.settings_ (this s) /\
    next s1 = next s /\
    calls s1 = calls s ++ (Texture_delete <$> victims images (cache s)).
Proof.
  destruct (erase_loop images (entries (cache s)) s)
    as (s1 & del & Hrun & Hgone & Hkept & Hp & Hc & Hr & Hcc & Hs & Hn & _).
  exists s1. repeat split; try done.
  - unfold updateImages.
    rewrite (bind_returns (gets ImageRenderer.textures_) _ s (cache s) s) by done.
    by rewrite (bind_returns _ _ _ _ _ Hrun).
  - intros key. case_decide as Hin.
    + by apply Hkept.
    + destruct (cache s !! key) as [tex|] eqn:Hlook.
      * apply Hgone; [|done].
        apply list_elem_of_fmap. exists (key, tex). split; [done|].
        by apply elem_of_entries.
      * rewrite Hkept; [done|].
        intros ((k & tex) & -> & Hin')%list_elem_of_fmap.
        apply elem_of_entries in Hin'. cbn in Hlook. congruence.
  - by apply erase_loop_calls.
Qed.

Lemma has_texture_insert m key t key' :
  has_texture (<[key := Some t]> m) key' =
  if decide (key = key') then true else has_texture m key'.
Proof.
  unfold has_texture. case_decide as Heq.
  - subst. by rewrite lookup_insert_eq.
  - by rewrite lookup_insert_ne.
Qed.

Lemma missing_cons_textured doc images m :
  has_texture m (get (ImageDocument.image doc)) = true ->
  missing (doc :: images) m = missing images m.
Proof.
  intros Ht. unfold missing. apply set_eq. intros key.
  rewrite !elem_of_filter, elem_of_referenced_cons. split.
  - intros [Hk [->|Hin]]; [congruence|done].
  - intros [Hk Hin]. auto.
Qed.

Lemma missing_cons_new doc images m t :
  has_texture m (get (ImageDocument.image doc)) = false ->
  size (missing (doc :: images) m) =
  S (size (missing images (<[get (ImageDocument.image doc) := Some t]> m))).
Proof.
  intros Ht. set (key := get (ImageDocument.image doc)) in *.
  assert (missing (doc :: images) m =
          {[key]} ∪ missing images (<[key := Some t]> m)) as ->.
  { unfold missing. apply set_eq. intros k.
    rewrite elem_of_union, elem_of_singleton, !elem_of_filter,
      elem_of_referenced_cons, has_texture_insert.
    fold key. destruct (decide (key = k)) as [<-|Hne].
    - split; [by left|]. intros _. auto.
    - split.
      + intros [Hk [->|Hin]]; [done|]. by right.
      + intros [->|[Hk Hin]]; [done|]. auto. }
  rewrite size_union, size_singleton; [done|].
  apply disjoint_singleton_l. unfold missing.
  rewrite elem_of_filter, has_texture_insert, decide_True by done.
  by intros [? _].
Qed.

(** The second loop: what it logs, how many textures it creates, and the
    fields it leaves alone. *)
Lemma create_loop_log images s s' :
  for_each images createIfMissing s = Returns tt s' ->
  exists cs,
    calls s' = calls s ++ cs /\
    deleted_textures cs = [] /\
    Forall (fun c => is_texture_lifecycle c = true) cs /\
    length (created_textures cs) = size (missing images (cache s)) /\
    (forall t, t ∈ created_textures cs -> (next s <= t)%N) /\
    next s' = (next s + N.of_nat (length (created_textures cs)))%N /\
    ImageRenderer.renderRegion_ (this s') = ImageRenderer.renderRegion_ (this s) /\
    ImageRenderer.clearColor_ (this s') = ImageRenderer.clearColor_ (this s) /\
    ImageRenderer.settings_ (this s') = ImageRenderer.settings_ (this s).
Proof.
  revert s. induction images as [|doc images IH]; intros s Hrun.
  - injection Hrun as <-. exists []. rewrite app_nil_r.
    repeat split; try done.
    + intros t Hin. by apply elem_of_nil in Hin.
    + change (N.of_nat (length (created_textures []))) with 0%N. lia.
  - rewrite for_each_cons in Hrun.
    apply bind_inv in Hrun as ([] & s1 & Hstep & Hrun).
    apply IH in Hrun as (cs & Hcalls & Hdel & Hlife & Hcount & Hfresh & Hnext
                         & Hr & Hc & Hs).
    apply createIfMissing_cases in Hstep
      as [[-> Ht]|(a & image & Himg & Ht & ->)].
    + exists cs. repeat split; try done.
      by rewrite missing_cons_textured.
    + exists (texture_calls (next s) image ++ cs).
      cbn [calls next this cache ImageRenderer.textures_
           ImageRenderer.set_textures_] in *.
      unfold created_textures, deleted_textures in *.
      rewrite !omap_app. change (omap created_texture (texture_calls (next s) image))
        with [next s].
      change (omap deleted_texture (texture_calls (next s) image)) with (@nil handle).
      repeat split; try done.
      * by rewrite Hcalls, app_assoc.
      * apply Forall_app. split; [|done]. by repeat constructor.
      * cbn [app length]. rewrite Hcount.
        rewrite (missing_cons_new doc images (cache s) (next s));
          rewrite Himg; done.
      * intros t [->|Hin]%elem_of_cons; [lia|].
        apply Hfresh in Hin. lia.
      * rewrite Hnext. cbn [app length]. lia.
Qed.

Lemma deleted_textures_deletes l :
  deleted_textures (Texture_delete <$> l) = l.
Proof. induction l as [|t l IH]; [done|]. cbn. by f_equal. Qed.

Lemma created_textures_deletes l :
  created_textures (Texture_delete <$> l) = [].
Proof. by induction l. Qed.

Lemma missing_agree images m1 m2 :
  (forall key, key ∈ referenced images -> m1 !! key = m2 !! key) ->
  missing images m1 = missing images m2.
Proof.
  intros Hagree. unfold missing. apply set_eq. intros key.
  rewrite !elem_of_filter. unfold has_texture.
  split; intros [Hk Hin]; (split; [|done]).
  - by rewrite <- Hagree.
  - by rewrite Hagree.
Qed.

Lemma renderer_same_but_textures (r r' : ImageRenderer.t) :
  ImageRenderer.program_ r' = ImageRenderer.program_ r ->
  ImageRenderer.current_ r' = ImageRenderer.current_ r ->
  ImageRenderer.renderRegion_ r' = ImageRenderer.renderRegion_ r ->
  ImageRenderer.clearColor_ r' = ImageRenderer.clearColor_ r ->
  ImageRenderer.settings_ r' = ImageRenderer.settings_ r ->
  r' = ImageRenderer.set_textures_ (ImageRenderer.textures_ r') r.
Proof. destruct r, r'. cbn. by intros -> -> -> -> ->. Qed.

(** The whole log of a returning [updateImages]: the destructions of the
    first loop, then the calls of the second. *)
Lemma updateImages_log images s s' :
  updateImages images s = Returns tt s' ->
  exists cs,
    new_calls s s' = (Texture_delete <$> victims images (cache s)) ++ cs /\
    deleted_textures cs = [] /\
    Forall (fun c => is_texture_lifecycle c = true) cs /\
    length (created_textures cs) = size (missing images (cache s)) /\
    (forall t, t ∈ created_textures cs -> (next s <= t)%N) /\
    next s' = (next s + N.of_nat (length (created_textures cs)))%N /\
    this s' = ImageRenderer.set_textures_ (cache s') (this s).
Proof.
  intros Hrun.
  destruct (updateImages_phases images s)
    as (s1 & Heq & Hmap & Hp & Hc & Hr & Hcc & Hs & Hn & Hcalls).
  rewrite Heq in Hrun.
  pose proof (create_loop _ _ _ Hrun) as (_ & _ & _ & Hp' & Hc').
  apply create_loop_log in Hrun
    as (cs & Hcalls' & Hdel & Hlife & Hcount & Hfresh & Hnext & Hr' & Hcc' & Hs').
  exists cs. repeat split; try done.
  - apply new_calls_app. by rewrite Hcalls', Hcalls, app_assoc.
  - rewrite Hcount. f_equal. apply missing_agree. intros key Hin.
    rewrite Hmap. by rewrite decide_True.
  - intros t Hin. rewrite <- Hn. by apply Hfresh.
  - by rewrite <- Hn.
  - apply renderer_same_but_textures; congruence.
Qed.

(** X1. The textures a returning [updateImages] destroys are exactly those
    of the entries no document references, each once, in the order of the
    map. *)
Theorem updateImages_deletes_unreferenced images s s' :
  updateImages images s = Returns tt s' ->
  deleted_textures (new_calls s s') = victims images (cache s).
Proof.
  intros (cs & -> & Hdel & _)%updateImages_log.
  unfold deleted_textures in *. rewrite omap_app, Hdel, app_nil_r.
  apply deleted_textures_deletes.
Qed.

(** X2. A returning [updateImages] creates one texture for each distinct
    referenced image that had none, however many documents share the image,
    and takes that many handles from the allocator. *)
Theorem updateImages_creates_missing images s s' :
  updateImages images s = Returns tt s' ->
  length (created_textures (new_calls s s')) = size (missing images (cache s)) /\
  next s' = (next s + N.of_nat (size (missing images (cache s))))%N.
Proof.
  intros (cs & -> & _ & _ & Hcount & _ & Hnext & _)%updateImages_log.
  unfold created_textures in *.
  rewrite omap_app. fold (created_textures (Texture_delete <$> victims images (cache s))).
  rewrite created_textures_deletes. cbn [app].
  split; [done|]. by rewrite <- Hcount.
Qed.

(** X3. Every call a returning [updateImages] issues creates, fills,
    configures or destroys a texture: it never draws, sets a uniform or
    touches the shader program. *)
Theorem updateImages_only_texture_calls images s s' :
  updateImages images s = Returns tt s' ->
  Forall (fun c => is_texture_lifecycle c = true) (new_calls s s').
Proof.
  intros (cs & -> & _ & Hlife & _)%updateImages_log.
  apply Forall_app. split; [|done].
  apply Forall_fmap, Forall_true. done.
Qed.

(** X4. A returning [updateImages] writes no member but the texture map:
    program, current image, render region, clear colour and settings are
    as before. *)
Theorem updateImages_frame images s s' :
  updateImages images s = Returns tt s' ->
  ImageRenderer.program_ (this s') = ImageRenderer.program_ (this s) /\
  ImageRenderer.current_ (this s') = ImageRenderer.current_ (this s) /\
  ImageRenderer.renderRegion_ (this s') = ImageRenderer.renderRegion_ (this s) /\
  ImageRenderer.clearColor_ (this s') = ImageRenderer.clearColor_ (this s) /\
  ImageRenderer.settings_ (this s') = ImageRenderer.settings_ (this s).
Proof.
  intros (cs & _ & _ & _ & _ & _ & _ & ->)%updateImages_log. done.
Qed.

Lemma filter_all {A} (P : A -> Prop) `{forall x, Decision (P x)} (l : list A) :
  (forall x, P x) -> filter P l = l.
Proof.
  intros HP. induction l as [|x l IH]; [done|].
  rewrite filter_cons, decide_True by done. by f_equal.
Qed.

(** X5. With an empty document list [updateImages] always returns, leaves
    the map empty and destroys every texture the map held, in the order of
    the map; it creates nothing. *)
Theorem updateImages_nil s :
  exists s',
    updateImages [] s = Returns tt s' /\
    cache s' = ∅ /\
    new_calls s s' = (Texture_delete <$> omap snd (entries (cache s))) /\
    next s' = next s.
Proof.
  destruct (updateImages_phases [] s)
    as (s1 & Heq & Hmap & _ & _ & _ & _ & _ & Hn & Hcalls).
  exists s1. split; [done|]. split; [|split; [|done]].
  - apply map_eq. intros key. rewrite Hmap, lookup_empty.
    case_decide as Hin; [|done]. by apply elem_of_empty in Hin.
  - apply new_calls_app. rewrite Hcalls. unfold victims.
    rewrite filter_all; [done|]. intros entry Hin. by apply elem_of_empty in Hin.
Qed.

(** The second loop never puts a texture under the null key. *)
Lemma create_loop_null_key images s s' t :
  for_each images createIfMissing s = Returns tt s' ->
  cache s' !! None = Some (Some t) ->
  cache s !! None = Some (Some t).
Proof.
  revert s. induction images as [|doc images IH]; intros s Hrun Hlook.
  - by injection Hrun as <-.
  - rewrite for_each_cons in Hrun.
    apply bind_inv in Hrun as ([] & s1 & Hstep & Hrun).
    specialize (IH _ Hrun Hlook).
    apply createIfMissing_cases in Hstep
      as [[-> _]|(a & image & _ & _ & ->)]; [done|].
    unfold cache in IH. cbn in IH. by rewrite lookup_insert_ne in IH.
Qed.

(** X6. When the map holds no texture under the null key, [updateImages]
    returns exactly when no document carries an empty image pointer; with
    such a document it dereferences the empty pointer. *)
Theorem updateImages_returns_iff images s :
  has_texture (cache s) None = false ->
  (exists s', updateImages images s = Returns tt s') <->
  Forall (fun doc => ImageDocument.image doc <> None) images.
Proof.
  intros Hnull. split; [|apply updateImages_returns].
  intros [s' Hrun]. apply Forall_forall. intros doc Hin Himg.
  assert (None ∈ referenced images) as Href.
  { apply elem_of_referenced in Hin. by rewrite Himg in Hin. }
  destruct (updateImages_cache _ _ _ Hrun) as [Hall _].
  destruct (Hall _ Href) as [t Ht].
  destruct (updateImages_phases images s) as (s1 & Heq & Hmap & _).
  rewrite Heq in Hrun.
  pose proof (create_loop_null_key _ _ _ _ Hrun Ht) as H1.
  rewrite Hmap, decide_True in H1 by done.
  unfold has_texture in Hnull. by rewrite H1 in Hnull.
Qed.



(** ** paint: when it returns, what it repeats, what it never does *)

(** X8. [paint] returns exactly when the current pointer is not empty and
    the map holds a texture for the current image; in every other state it
    dereferences an empty pointer. *)
Theorem paint_returns_iff s :
  (exists s', paint s = Returns tt s') <->
  (exists a image,
      ImageRenderer.current_ (this s) = Some (a, image) /\
      has_texture (cache s) (Some a) = true).
Proof.
  unfold has_texture. split.
  - intros [s' (a & image & t & Hcur & Hlook & _)%paint_returns_inv].
    exists a, image. by rewrite Hlook.
  - intros (a & image & Hcur & Hlook).
    destruct (cache s !! Some a) as [[t|]|] eqn:Ht; try done.
    eexists. by eapply paint_hit.
Qed.

(** X9. A returning [paint] writes no member but the program.  A second
    [paint] right after it returns too, allocates nothing, changes no
    member, and issues the same calls as the first without the program
    setup. *)
Theorem paint_repeatable s s1 :
  paint s = Returns tt s1 ->
  this s1 = ImageRenderer.set_program_ (Some (program_of s)) (this s) /\
  exists s2,
    paint s1 = Returns tt s2 /\
    this s2 = this s1 /\
    next s2 = next s1 /\
    new_calls s s1 = setup_calls s ++ new_calls s1 s2.
Proof.
  intros (a & image & t & Hcur & Hlook & ->)%paint_returns_inv.
  split; [done|].
  eexists. split.
  - eapply paint_hit; [exact Hcur|].
    unfold cache in *. cbn [this after_setup ImageRenderer.textures_
      ImageRenderer.set_program_]. exact Hlook.
  - split; [reflexivity|]. split; [reflexivity|].
    rewrite (new_calls_app s _
               (setup_calls s ++ bind_calls (program_of s)
                ++ draw_calls (program_of s) t (this s) image)).
    + f_equal. symmetry. apply new_calls_app.
      cbn [calls]. symmetry. apply (app_assoc _ (bind_calls (program_of s))).
    + cbn [calls after_setup]. by rewrite <- !app_assoc.
Qed.

(** X10. After a returning [updateImages] whose list does not reference the
    current image, [paint] does not return: its lookup makes an empty entry
    for the image and the dereference of that entry is undefined. *)
Theorem paint_after_drop s images s1 a image :
  updateImages images s = Returns tt s1 ->
  ImageRenderer.current_ (this s) = Some (a, image) ->
  Some a ∉ referenced images ->
  exists s2,
    paint s1 = Undefined s2 /\
    cache s1 !! Some a = None /\
    cache s2 !! Some a = Some None.
Proof.
  intros Hrun Hcur Hnot.
  destruct (updateImages_cache _ _ _ Hrun) as [_ Hout].
  pose proof (updateImages_program _ _ _ Hrun) as _.
  assert (ImageRenderer.current_ (this s1) = Some (a, image)) as Hcur1.
  { destruct (updateImages_phases images s) as (s0 & Heq & _ & _ & Hc & _).
    rewrite Heq in Hrun.
    apply create_loop in Hrun as (_ & _ & _ & _ & Hc'). congruence. }
  eexists. split; [by eapply paint_miss; [|apply Hout]|].
  split; [by apply Hout|].
  unfold cache. cbn. apply lookup_insert_eq.
Qed.

(** X11. Whether it returns or not, [paint] makes none of the calls of
    [createTexture] and destroys no texture: creation, size, format,
    storage, pixel upload, filters, wrap mode and mipmaps happen in
    [updateImages] only.  The calls it does make on a texture are
    [setBorderColor], [bind] and [release], once each and in this order, on
    the texture the map holds for the current image, when it returns; when
    it does not return it has made no call on any texture. *)
Theorem paint_no_texture_lifecycle s :
  Forall (fun c => is_texture_lifecycle c = false)
    (new_calls s (final (paint s))) /\
  ((exists s', paint s = Undefined s') /\
   calls_on_textures (new_calls s (final (paint s))) = [] \/
   exists a image t,
     ImageRenderer.current_ (this s) = Some (a, image) /\
     cache s !! Some a = Some (Some t) /\
     calls_on_textures (new_calls s (final (paint s))) =
     [setBorderColor t (ImageRenderer.clearColor_ (this s));
      Texture_bind t 0; Texture_release t 0]).
Proof.
  assert (Forall (fun c => is_texture_lifecycle c = false)
            (setup_calls s ++ bind_calls (program_of s))) as Hsetup.
  { apply Forall_app. split; [|by repeat constructor].
    unfold setup_calls. destruct (ImageRenderer.program_ (this s));
      by repeat constructor. }
  assert (calls_on_textures (setup_calls s ++ bind_calls (program_of s)) = [])
    as Hnone.
  { unfold setup_calls. by destruct (ImageRenderer.program_ (this s)). }
  destruct (ImageRenderer.current_ (this s)) as [[a image]|] eqn:Hcur.
  - destruct (cache s !! Some a) as [[t|]|] eqn:Hlook.
    + rewrite (paint_hit _ _ _ _ Hcur Hlook). cbn [final].
      erewrite new_calls_app by (cbn [calls after_setup]; by rewrite <- app_assoc).
      split.
      * apply Forall_app. split; [done|]. by repeat constructor.
      * right. exists a, image, t. split; [done|]. split; [done|].
        unfold calls_on_textures in *. by rewrite filter_app, Hnone.
    + rewrite (paint_null_entry _ _ _ Hcur Hlook). cbn [final].
      erewrite new_calls_app by done. split; [done|]. left. eauto.
    + rewrite (paint_miss _ _ _ Hcur Hlook). cbn [final].
      erewrite new_calls_app by done. split; [done|]. left. eauto.
  - rewrite (paint_no_current _ Hcur). cbn [final].
    erewrite new_calls_app by done. split; [done|]. left. eauto.
Qed.

(** A key without a texture that the second loop meets is given a texture
    filled from the image of a document of the list with that key. *)
Lemma create_loop_uploads images s s' a :
  for_each images createIfMissing s = Returns tt s' ->
  Some a ∈ referenced images ->
  has_texture (cache s) (Some a) = false ->
  exists t doc image before after,
    cache s' !! Some a = Some (Some t) /\
    doc ∈ images /\
    ImageDocument.image doc = Some (a, image) /\
    new_calls s s' = before ++ texture_calls t image ++ after.
Proof.
  revert s. induction images as [|doc images IH]; intros s Hrun Hin Hno.
  - by apply elem_of_empty in Hin.
  - rewrite for_each_cons in Hrun.
    apply bind_inv in Hrun as ([] & s1 & Hstep & Hrun).
    pose proof (create_loop_log _ _ _ Hrun) as (cs & Hcalls & _).
    apply elem_of_referenced_cons in Hin.
    apply createIfMissing_cases in Hstep
      as [[-> Ht]|(a0 & image0 & Himg & Ht & ->)].
    + destruct Hin as [Heq|Hin]; [rewrite <- Heq in Ht; congruence|].
      destruct (IH _ Hrun Hin Hno)
        as (t & doc' & image & before & after & Hlook & Hdoc & Himg & Hnew).
      exists t, doc', image, before, after.
      repeat split; try done. by right.
    + assert (new_calls s s' = texture_calls (next s) image0 ++ cs) as Hnew.
      { apply new_calls_app. rewrite Hcalls. cbn [calls]. by rewrite app_assoc. }
      rewrite Himg in Hin. cbn in Hin.
      destruct (decide (a = a0)) as [->|Hne].
      * exists (next s), doc, image0, [], cs.
        split; [|split; [by left|split; [done|done]]].
        apply create_loop in Hrun as (_ & _ & Hkeep & _).
        apply Hkeep. unfold cache. cbn. apply lookup_insert_eq.
      * destruct Hin as [[= ->]|Hin]; [done|].
        destruct (IH _ Hrun Hin)
          as (t & doc' & image & before & after & Hlook & Hdoc & Himg' & Hnew').
        { unfold cache. cbn. fold (cache s).
          rewrite has_texture_insert. rewrite decide_False; [done|congruence]. }
        exists t, doc', image, (texture_calls (next s) image0 ++ before), after.
        split; [done|]. split; [by right|]. split; [done|].
        rewrite Hnew. rewrite (new_calls_app _ _ _ Hcalls) in Hnew'.
        rewrite Hnew'. by rewrite <- app_assoc.
Qed.

(** X12. A referenced image without a texture gets, from a returning
    [updateImages], a texture of the size, the format and the pixel data
    of the image of a document of the list: the nine calls of
    [createTexture] on that image appear, in order and side by side, in the
    calls issued. *)
Theorem updateImages_uploads_image images s s' a :
  updateImages images s = Returns tt s' ->
  Some a ∈ referenced images ->
  has_texture (cache s) (Some a) = false ->
  exists t doc image before after,
    cache s' !! Some a = Some (Some t) /\
    doc ∈ images /\
    ImageDocument.image doc = Some (a, image) /\
    new_calls s s' = before ++ texture_calls t image ++ after.
Proof.
  intros Hrun Hin Hno.
  destruct (updateImages_phases images s)
    as (s1 & Heq & Hmap & _ & _ & _ & _ & _ & Hn & Hcalls).
  rewrite Heq in Hrun.
  destruct (create_loop_uploads images s1 s' a Hrun Hin)
    as (t & doc & image & before & after & Hlook & Hdoc & Himg & Hnew).
  { unfold has_texture in *. rewrite Hmap. by rewrite decide_True. }
  exists t, doc, image,
    ((Texture_delete <$> victims images (cache s)) ++ before), after.
  repeat split; try done.
  pose proof (create_loop_log _ _ _ Hrun) as (cs & Hcalls' & _).
  rewrite (new_calls_app _ _ _ Hcalls') in Hnew.
  rewrite <- app_assoc, <- Hnew.
  apply new_calls_app. by rewrite Hcalls', Hcalls, app_assoc.
Qed.

(** ** Ownership of textures *)

Lemma created_textures_app l1 l2 :
  created_textures (l1 ++ l2) = created_textures l1 ++ created_textures l2.
Proof. apply omap_app. Qed.

Lemma deleted_textures_app l1 l2 :
  deleted_textures (l1 ++ l2) = deleted_textures l1 ++ deleted_textures l2.
Proof. apply omap_app. Qed.

Lemma bound_textures_app l1 l2 :
  bound_textures (l1 ++ l2) = bound_textures l1 ++ bound_textures l2.
Proof. apply omap_app. Qed.

Lemma elem_of_victims images m t :
  (t ∈ victims images m) <->
  exists key, (key ∉ referenced images) /\ m !! key = Some (Some t).
Proof.
  unfold victims. rewrite list_elem_of_omap. split.
  - intros ([key tex] & [Hnot Hin]%list_elem_of_filter & Hsnd).
    apply elem_of_entries in Hin. cbn in *. subst. eauto.
  - intros (key & Hnot & Hlook). exists (key, Some t). split; [|done].
    apply list_elem_of_filter. split; [done|]. by apply elem_of_entries.
Qed.

Lemma NoDup_entries_keys (m : gmap ptr unique_ptr) : NoDup ((entries m).*1).
Proof.
  unfold entries. rewrite merge_sort_Permutation.
  apply NoDup_fst_map_to_list.
Qed.

Lemma NoDup_omap_snd (l : list (ptr * unique_ptr)) :
  NoDup (l.*1) ->
  (forall k1 k2 t, (k1, Some t) ∈ l -> (k2, Some t) ∈ l -> k1 = k2) ->
  NoDup (omap snd l).
Proof.
  induction l as [|[k [t|]] l IH]; intros Hnd Hinj; cbn.
  - constructor.
  - apply NoDup_cons in Hnd as [Hk Hnd]. apply NoDup_cons. split.
    + intros ([k' tex] & Hin & Hsnd)%list_elem_of_omap. cbn in Hsnd. subst tex.
      assert (k = k') as <-.
      { eapply Hinj; [by left|by right]. }
      apply Hk. apply list_elem_of_fmap. by exists (k, Some t).
    + apply IH; [done|]. intros k1 k2 t' H1 H2. eapply Hinj; by right.
  - apply NoDup_cons in Hnd as [Hk Hnd].
    apply IH; [done|]. intros k1 k2 t' H1 H2. eapply Hinj; by right.
Qed.

Lemma NoDup_victims (images : list ImageDocument.t) (m : gmap ptr unique_ptr) :
  (forall k1 k2 t, m !! k1 = Some (Some t) -> m !! k2 = Some (Some t) -> k1 = k2) ->
  NoDup (victims images m).
Proof.
  intros Hinj. unfold victims. apply NoDup_omap_snd.
  - eapply sublist_NoDup; [apply NoDup_entries_keys|].
    apply fmap_sublist, sublist_filter.
  - intros k1 k2 t [_ H1]%list_elem_of_filter [_ H2]%list_elem_of_filter.
    apply elem_of_entries in H1, H2. by eapply Hinj.
Qed.

(** A state with an empty map and a log without textures owns its (no)
    textures. *)
Lemma owns_live_empty s :
  cache s = ∅ ->
  created_textures (calls s) = [] ->
  deleted_textures (calls s) = [] ->
  owns_live s.
Proof.
  intros Hc Hcr Hdel. unfold owns_live. rewrite Hc, Hcr, Hdel.
  split; [|split; [|split; [|split; [|split; [|split]]]]].
  - intros key. by rewrite lookup_empty.
  - intros k1 k2 t. by rewrite lookup_empty.
  - intros t. split.
    + intros [key Hlook]. by rewrite lookup_empty in Hlook.
    + intros [Hin _]. by apply elem_of_nil in Hin.
  - constructor.
  - intros t Hin. by apply elem_of_nil in Hin.
  - constructor.
  - intros t Hin. by apply elem_of_nil in Hin.
Qed.

(** Ownership only depends on the map, on the textures the log creates
    and destroys, and on the allocator not going back. *)
Lemma owns_live_same s s' :
  cache s' = cache s ->
  created_textures (calls s') = created_textures (calls s) ->
  deleted_textures (calls s') = deleted_textures (calls s) ->
  (next s <= next s')%N ->
  owns_live s -> owns_live s'.
Proof.
  intros Hc Hcr Hdel Hn (H1 & H2 & H3 & H4 & H5 & H6 & H7).
  unfold owns_live. rewrite Hc, Hcr, Hdel.
  split; [|split; [|split; [|split; [|split; [|split]]]]]; try done.
  intros t Hin. apply H7 in Hin. lia.
Qed.

(** The first loop of [updateImages] keeps ownership. *)
Lemma owns_live_erase images s s1 :
  (forall key, cache s1 !! key =
               if decide (key ∈ referenced images) then cache s !! key else None) ->
  next s1 = next s ->
  calls s1 = calls s ++ (Texture_delete <$> victims images (cache s)) ->
  owns_live s -> owns_live s1.
Proof.
  intros Hmap Hn Hcalls (H1 & H2 & H3 & H4 & H5 & H6 & H7).
  assert (forall key t, cache s1 !! key = Some (Some t) ->
                        key ∈ referenced images /\ cache s !! key = Some (Some t))
    as Hfrom.
  { intros key t. rewrite Hmap. by case_decide. }
  unfold owns_live.
  rewrite Hcalls, created_textures_app, deleted_textures_app,
    created_textures_deletes, deleted_textures_deletes, app_nil_r, Hn.
  split; [|split; [|split; [|split; [|split; [|split]]]]]; try done.
  - intros key. rewrite Hmap. case_decide; [apply H1|done].
  - intros k1 k2 t [_ Hk1]%Hfrom [_ Hk2]%Hfrom. by eapply H2.
  - intros t. split.
    + intros [key [Href Hlook]%Hfrom].
      assert (t ∈ created_textures (calls s) /\ t ∉ deleted_textures (calls s))
        as [Hcr Hnd] by (apply H3; eauto).
      split; [done|]. intros [Hin|Hin]%elem_of_app; [done|].
      apply elem_of_victims in Hin as (key' & Hnot & Hlook').
      by rewrite (H2 _ _ _ Hlook Hlook') in Href.
    + intros [Hcr Hnd].
      destruct (proj2 (H3 t)) as [key Hlook].
      { split; [done|]. intros Hin. apply Hnd, elem_of_app. by left. }
      exists key. rewrite Hmap. rewrite decide_True; [done|].
      destruct (decide (key ∈ referenced images)) as [|Hnot]; [done|].
      exfalso. apply Hnd, elem_of_app. right.
      apply elem_of_victims. eauto.
  - apply NoDup_app. split; [done|]. split; [|by apply NoDup_victims].
    intros t Hdel (key & _ & Hlook)%elem_of_victims.
    assert (t ∈ created_textures (calls s) /\ t ∉ deleted_textures (calls s))
      as [_ Hnd] by (apply H3; eauto).
    done.
  - intros t [Hin|Hin]%elem_of_app; [by apply H5|].
    apply elem_of_victims in Hin as (key & _ & Hlook).
    apply H3. eauto.
Qed.

(** Creating a texture for an image that has none keeps ownership. *)
Lemma owns_live_insert s a image :
  has_texture (cache s) (Some a) = false ->
  owns_live s ->
  owns_live
    (mkState
       (ImageRenderer.set_textures_
          (<[Some a := Some (next s)]> (cache s)) (this s))
       (calls s ++ texture_calls (next s) image)
       (N.succ (next s))).
Proof.
  intros Hno (H1 & H2 & H3 & H4 & H5 & H6 & H7).
  assert (next s ∉ created_textures (calls s)) as Hfresh.
  { intros Hin%H7. lia. }
  assert (forall key, cache s !! key <> Some (Some (next s))) as Hunused.
  { intros key Hlook. apply Hfresh. apply H3. eauto. }
  assert (forall t, cache s !! Some a <> Some (Some t)) as Hnone.
  { intros t Hlook. unfold has_texture in Hno. by rewrite Hlook in Hno. }
  unfold owns_live, cache.
  cbn [this calls next ImageRenderer.textures_ ImageRenderer.set_textures_].
  fold (cache s).
  rewrite created_textures_app, deleted_textures_app.
  change (created_textures (texture_calls (next s) image)) with [next s].
  change (deleted_textures (texture_calls (next s) image)) with (@nil handle).
  rewrite app_nil_r.
  split; [|split; [|split; [|split; [|split; [|split]]]]]; try done.
  - intros key. destruct (decide (Some a = key)) as [<-|Hne].
    + by rewrite lookup_insert_eq.
    + rewrite lookup_insert_ne by done. apply H1.
  - intros k1 k2 t.
    destruct (decide (Some a = k1)) as [<-|Hne1],
             (decide (Some a = k2)) as [<-|Hne2]; [done|..].
    + rewrite lookup_insert_eq, lookup_insert_ne by done.
      intros [= <-] Hlook. by apply Hunused in Hlook.
    + rewrite lookup_insert_eq, lookup_insert_ne by done.
      intros Hlook [= <-]. by apply Hunused in Hlook.
    + rewrite !lookup_insert_ne by done. apply H2.
  - intros t. split.
    + intros [key Hlook]. destruct (decide (Some a = key)) as [<-|Hne].
      * rewrite lookup_insert_eq in Hlook. injection Hlook as <-.
        split; [apply elem_of_app; right; by left|].
        intros Hin%H5. done.
      * rewrite lookup_insert_ne in Hlook by done.
        assert (t ∈ created_textures (calls s) /\ t ∉ deleted_textures (calls s))
          as [Hcr Hnd] by (apply H3; eauto).
        split; [|done]. apply elem_of_app. by left.
    + intros [[Hcr|Hcr]%elem_of_app Hnd].
      * destruct (proj2 (H3 t)) as [key Hlook]; [done|].
        exists key. rewrite lookup_insert_ne; [done|].
        intros <-. by apply Hnone in Hlook.
      * apply list_elem_of_singleton in Hcr as ->.
        exists (Some a). apply lookup_insert_eq.
  - intros t Hin. apply elem_of_app. left. by apply H5.
  - apply NoDup_app. split; [done|]. split; [|apply NoDup_singleton].
    intros t Hin Heq. apply list_elem_of_singleton in Heq as ->. done.
  - intros t [Hin|Hin]%elem_of_app.
    + apply H7 in Hin. lia.
    + apply list_elem_of_singleton in Hin as ->. lia.
Qed.

Lemma owns_live_create_loop images s s' :
  for_each images createIfMissing s = Returns tt s' ->
  owns_live s -> owns_live s'.
Proof.
  revert s. induction images as [|doc images IH]; intros s Hrun Hown.
  - by injection Hrun as <-.
  - rewrite for_each_cons in Hrun.
    apply bind_inv in Hrun as ([] & s1 & Hstep & Hrun).
    apply (IH _ Hrun).
    apply createIfMissing_cases in Hstep
      as [[-> _]|(a & image & _ & Hno & ->)]; [done|].
    by apply owns_live_insert.
Qed.

Lemma owns_live_updateImages images s s' :
  updateImages images s = Returns tt s' ->
  owns_live s -> owns_live s'.
Proof.
  intros Hrun Hown.
  destruct (updateImages_phases images s)
    as (s1 & Heq & Hmap & _ & _ & _ & _ & _ & Hn & Hcalls).
  rewrite Heq in Hrun.
  apply (owns_live_create_loop _ _ _ Hrun).
  by eapply owns_live_erase.
Qed.

Lemma paint_lifecycle_free s t image :
  created_textures
    (setup_calls s ++ bind_calls (program_of s)
     ++ draw_calls (program_of s) t (this s) image) = [] /\
  deleted_textures
    (setup_calls s ++ bind_calls (program_of s)
     ++ draw_calls (program_of s) t (this s) image) = [] /\
  bound_textures
    (setup_calls s ++ bind_calls (program_of s)
     ++ draw_calls (program_of s) t (this s) image) = [t].
Proof.
  unfold setup_calls. by destruct (ImageRenderer.program_ (this s)).
Qed.

Lemma paint_calls s s' :
  paint s = Returns tt s' ->
  exists a image t,
    ImageRenderer.current_ (this s) = Some (a, image) /\
    cache s !! Some a = Some (Some t) /\
    cache s' = cache s /\
    (next s <= next s')%N /\
    calls s' = calls s ++ setup_calls s ++ bind_calls (program_of s)
               ++ draw_calls (program_of s) t (this s) image.
Proof.
  intros (a & image & t & Hcur & Hlook & ->)%paint_returns_inv.
  exists a, image, t. repeat split; try done.
  - cbn [next]. unfold next_after_setup.
    destruct (ImageRenderer.program_ (this s)); lia.
  - cbn [calls after_setup]. by rewrite <- !app_assoc.
Qed.

Lemma owns_live_paint s s' :
  paint s = Returns tt s' -> owns_live s -> owns_live s'.
Proof.
  intros (a & image & t & _ & _ & Hc & Hn & Hcalls)%paint_calls.
  destruct (paint_lifecycle_free s t image) as (Hcr & Hdel & _).
  apply owns_live_same; [done| | |done].
  - by rewrite Hcalls, created_textures_app, Hcr, app_nil_r.
  - by rewrite Hcalls, deleted_textures_app, Hdel, app_nil_r.
Qed.

Lemma owns_live_step op s s' :
  step op s = Returns tt s' -> owns_live s -> owns_live s'.
Proof.
  destruct op as [image|images|]; cbn [step].
  - rewrite setCurrent_returns. intros [= <-]. by apply owns_live_same.
  - apply owns_live_updateImages.
  - apply owns_live_paint.
Qed.

(** X13. Ownership of textures is kept by every sequence of calls that
    returns: afterwards no entry of the map is empty, no two images share
    a texture, the textures in the map are exactly those created and not
    destroyed (none leaks, none is used after destruction), and no texture
    has been destroyed twice or created twice. *)
Theorem run_owns_live ops s s' :
  owns_live s ->
  run ops s = Returns tt s' ->
  owns_live s'.
Proof.
  revert s. induction ops as [|op ops IH]; intros s Hown Hrun.
  - by injection Hrun as <-.
  - rewrite run_cons in Hrun.
    apply bind_inv in Hrun as ([] & s1 & Hstep & Hrun).
    apply (IH s1); [|done]. by eapply owns_live_step.
Qed.

(** X14. In a state that owns its textures, a returning [paint] binds one
    texture, the one the map holds for the current image, and that texture
    has been created and not destroyed. *)
Theorem paint_binds_live_texture s s' :
  owns_live s ->
  paint s = Returns tt s' ->
  exists a image t,
    ImageRenderer.current_ (this s) = Some (a, image) /\
    cache s !! Some a = Some (Some t) /\
    bound_textures (new_calls s s') = [t] /\
    t ∈ created_textures (calls s) /\
    t ∉ deleted_textures (calls s).
Proof.
  intros (_ & _ & H3 & _) (a & image & t & Hcur & Hlook & _ & _ & Hcalls)%paint_calls.
  exists a, image, t. split; [done|]. split; [done|].
  rewrite (new_calls_app _ _ _ Hcalls).
  split; [apply paint_lifecycle_free|].
  apply H3. eauto.
Qed.

Lemma length_omap_snd (l : list (ptr * unique_ptr)) :
  (forall key, (key, None) ∉ l) ->
  length (omap snd l) = length l.
Proof.
  induction l as [|[k [t|]] l IH]; intros Hfull; [done|..].
  - cbn. f_equal. apply IH. intros key Hin. apply (Hfull key). by right.
  - exfalso. apply (Hfull k). by left.
Qed.

Lemma length_list_difference (l k : list handle) :
  NoDup l -> NoDup k -> (forall t, t ∈ k -> t ∈ l) ->
  length l = (length (list_difference l k) + length k)%nat.
Proof.
  intros Hl Hk Hsub. rewrite <- length_app. apply Permutation_length.
  apply NoDup_Permutation; [done| |].
  - apply NoDup_app. split; [by apply NoDup_list_difference|]. split; [|done].
    by intros t [_ Hnot]%list_elem_of_difference.
  - intros t. rewrite elem_of_app, list_elem_of_difference.
    split.
    + intros Hin. destruct (decide (t ∈ k)); [by right|by left].
    + intros [[Hin _]|Hin]; [done|by apply Hsub].
Qed.

(** In a state that owns its textures there are as many textures alive as
    the map has entries. *)
Lemma owns_live_count s :
  owns_live s ->
  length (created_textures (calls s)) =
  (length (deleted_textures (calls s)) + size (cache s))%nat.
Proof.
  intros (H1 & H2 & H3 & H4 & H5 & H6 & _).
  rewrite (length_list_difference _ (deleted_textures (calls s))) by done.
  rewrite Nat.add_comm. f_equal.
  rewrite <- length_map_to_list.
  rewrite <- (Permutation_length (merge_sort_Permutation key_le _)).
  fold (entries (cache s)).
  rewrite <- (length_omap_snd (entries (cache s))).
  - apply Permutation_length, NoDup_Permutation.
    + by apply NoDup_list_difference.
    + apply NoDup_omap_snd; [apply NoDup_entries_keys|].
      intros k1 k2 t Hk1%elem_of_entries Hk2%elem_of_entries. by eapply H2.
    + intros t. rewrite list_elem_of_difference, <- H3, list_elem_of_omap.
      split.
      * intros [key Hlook]. exists (key, Some t). split; [|done].
        by apply elem_of_entries.
      * intros ([key tex] & Hin%elem_of_entries & Hsnd). cbn in Hsnd.
        subst. eauto.
  - intros key Hin%elem_of_entries. by apply H1 in Hin.
Qed.

(** X15. Whatever sequence of [setCurrent], [updateImages] and [paint]
    calls returns from a state that owns its textures, the textures created
    up to then are those destroyed up to then and one for each entry of the
    map: the textures alive are as many as the map has entries. *)
Theorem live_textures_counted ops s s' :
  owns_live s ->
  run ops s = Returns tt s' ->
  length (created_textures (calls s')) =
  (length (deleted_textures (calls s')) + size (cache s'))%nat.
Proof.
  revert s. induction ops as [|op ops IH]; intros s Hown Hrun.
  - injection Hrun as <-. by apply owns_live_count.
  - rewrite run_cons in Hrun.
    apply bind_inv in Hrun as ([] & s1 & Hstep & Hrun).
    apply (IH s1); [|done]. by eapply owns_live_step.
Qed.

(** ** An image that fills the region; a region without width *)

Lemma div_self s m e :
  (S754_finite s m e / S754_finite s m e)%f32 = F32.one.
Proof.
  unfold F32.div, SFdiv, SFdiv_core_binary. cbn [Zdigits2].
  rewrite xorb_nilpotent.
  replace (Zpos (digits2_pos m) + e - (Zpos (digits2_pos m) + e)) with 0 by lia.
  rewrite Z.sub_diag.
  change (Z.min (fexp F32.prec F32.emax 0) 0) with (-24).
  change (0 - -24) with 24.
  rewrite Z.shiftl_mul_pow2 by lia.
  replace (Zpos m * 2 ^ 24) with (Zpos 16777216 * Zpos m) by lia.
  rewrite F32Facts.div_eucl_exact.
  unfold new_location. by destruct (Z.even (Zpos m)).
Qed.

Lemma sub_self s m e :
  (S754_finite s m e - S754_finite s m e)%f32 = F32.zero.
Proof. unfold F32.sub, SFsub. cbn zeta. by rewrite Z.sub_diag. Qed.

Lemma div_zero_not_finite (x : float) :
  not_finite (x / F32.zero)%f32 = true.
Proof. by destruct x as [[]|[]| |[] m e]. Qed.

Lemma draw_uniforms p t r image :
  uniform_values "position" (draw_calls p t r image) =
  [UVec2 (texturePosition (regionSize_of (ImageRenderer.renderRegion_ r))
            (imageSize_of image (ImageRenderer.settings_ r))
            (ImageSettings.position (ImageRenderer.settings_ r)))] /\
  uniform_values "scale" (draw_calls p t r image) =
  [UVec2 (textureScale (regionSize_of (ImageRenderer.renderRegion_ r))
            (imageSize_of image (ImageRenderer.settings_ r)))].
Proof. split; reflexivity. Qed.

(** X16. For an image that covers the region exactly (finite, non-zero
    sizes, the same in both arguments) and no pan, the scale is exactly
    (1, 1) and the position is a zero in both components, whatever the
    size: no rounding error enters. *)
Theorem image_fills_region sx mx ex sy my ey :
  textureScale (QVector2D.make (S754_finite sx mx ex) (S754_finite sy my ey))
               (QVector2D.make (S754_finite sx mx ex) (S754_finite sy my ey))
  = QVector2D.make F32.one F32.one /\
  texturePosition (QVector2D.make (S754_finite sx mx ex) (S754_finite sy my ey))
                  (QVector2D.make (S754_finite sx mx ex) (S754_finite sy my ey))
                  zero_pan
  = QVector2D.make (S754_zero sx) (S754_zero sy).
Proof.
  unfold textureScale, texturePosition, zero_pan, QVector2D.div, QVector2D.divf,
    QVector2D.sub, QVector2D.add.
  cbn [QVector2D.x QVector2D.y].
  rewrite !div_self, !sub_self. split; [done|].
  by destruct sx, sy.
Qed.

(** X17. [paint] does not guard the division by the region size: with a
    region of width 0 a returning [paint] passes a position and a scale
    whose x components are an infinity or a NaN. *)
Theorem paint_zero_width_region s s' :
  QSize.width (RenderRegion.size (ImageRenderer.renderRegion_ (this s))) = 0 ->
  paint s = Returns tt s' ->
  exists position scale,
    uniform_values "position" (new_calls s s') = [UVec2 position] /\
    uniform_values "scale" (new_calls s s') = [UVec2 scale] /\
    not_finite (QVector2D.x position) = true /\
    not_finite (QVector2D.x scale) = true.
Proof.
  intros Hwidth (a & image & t & _ & _ & _ & _ & Hcalls)%paint_calls.
  rewrite (new_calls_app _ _ _ Hcalls).
  rewrite app_assoc,
    !(uniform_values_app _ (setup_calls s ++ bind_calls (program_of s))),
    !uniform_values_setup.
  destruct (draw_uniforms (program_of s) t (this s) image) as [-> ->].
  eexists _, _. split; [reflexivity|]. split; [reflexivity|].
  unfold texturePosition, textureScale, QVector2D.div, regionSize_of.
  cbn [QVector2D.x QVector2D.y]. rewrite Hwidth.
  change (F32.of_int 0) with F32.zero.
  split; apply div_zero_not_finite.
Qed.

(** ** The program is built once *)

Lemma program_build_app l1 l2 :
  program_build (l1 ++ l2) = program_build l1 ++ program_build l2.
Proof. apply filter_app. Qed.

Lemma program_build_texture l :
  Forall (fun c => is_texture_lifecycle c = true) l -> program_build l = [].
Proof.
  induction 1 as [|c l Hc _ IH]; [done|].
  unfold program_build in *. rewrite filter_cons, IH. by destruct c.
Qed.

(** [updateImages] takes no part in building a program. *)
Lemma updateImages_build images s s' :
  updateImages images s = Returns tt s' ->
  program_build (calls s') = program_build (calls s).
Proof.
  intros Hrun.
  destruct (updateImages_phases images s)
    as (s1 & Heq & _ & _ & _ & _ & _ & _ & _ & Hcalls).
  rewrite Heq in Hrun.
  apply create_loop_log in Hrun as (cs & -> & _ & Hlife & _).
  assert (program_build (Texture_delete <$> victims images (cache s)) = [])
    as Hdel.
  { apply program_build_texture, Forall_fmap, Forall_true. done. }
  by rewrite Hcalls, !program_build_app, (program_build_texture cs Hlife),
    Hdel, !app_nil_r.
Qed.

(** A returning [paint] builds the program when there is none, with the
    calls of [createProgram], and makes no such call otherwise. *)
Lemma paint_build s s' :
  paint s = Returns tt s' ->
  program_build (calls s') =
  program_build (calls s) ++
  match ImageRenderer.program_ (this s) with
  | Some _ => []
  | None => program_calls (next s)
  end.
Proof.
  intros (a & image & t & _ & _ & _ & _ & ->)%paint_calls.
  rewrite !program_build_app. f_equal.
  change (program_build (bind_calls (program_of s))) with (@nil GLCall).
  change (program_build (draw_calls (program_of s) t (this s) image))
    with (@nil GLCall).
  rewrite !app_nil_r. unfold setup_calls.
  by destruct (ImageRenderer.program_ (this s)).
Qed.

Lemma step_other_build op s s' :
  is_paint op = false ->
  step op s = Returns tt s' ->
  program_build (calls s') = program_build (calls s).
Proof.
  destruct op as [image|images|]; cbn [step is_paint]; intros Hop Hstep.
  - rewrite setCurrent_returns in Hstep. by injection Hstep as <-.
  - by apply updateImages_build with images.
  - discriminate.
Qed.

Lemma step_keeps_build op s s' p :
  ImageRenderer.program_ (this s) = Some p ->
  step op s = Returns tt s' ->
  program_build (calls s') = program_build (calls s).
Proof.
  intros Hp Hstep. destruct (is_paint op) eqn:Hop.
  - destruct op; try discriminate. cbn [step] in Hstep.
    apply paint_build in Hstep. rewrite Hp in Hstep.
    by rewrite app_nil_r in Hstep.
  - by apply step_other_build with op.
Qed.

Lemma run_other_build ops s s' :
  Forall (fun op => is_paint op = false) ops ->
  run ops s = Returns tt s' ->
  program_build (calls s') = program_build (calls s).
Proof.
  intros Hall. revert s. induction Hall as [|op ops Hop _ IH]; intros s Hrun.
  - by injection Hrun as <-.
  - rewrite run_cons in Hrun.
    apply bind_inv in Hrun as ([] & s1 & Hstep & Hrun).
    rewrite (IH _ Hrun). by apply step_other_build with op.
Qed.

Lemma run_keeps_build ops s s' p :
  ImageRenderer.program_ (this s) = Some p ->
  run ops s = Returns tt s' ->
  program_build (calls s') = program_build (calls s).
Proof.
  revert s. induction ops as [|op ops IH]; intros s Hp Hrun.
  - by injection Hrun as <-.
  - rewrite run_cons in Hrun.
    apply bind_inv in Hrun as ([] & s1 & Hstep & Hrun).
    destruct (step_keeps_program _ _ _ _ Hp Hstep) as [Hp1 _].
    rewrite (IH _ Hp1 Hrun). by apply step_keeps_build with op p.
Qed.

(** C7. On a renderer that starts without a program, take any sequence of
    calls that returns and contains a [paint].  Up to the first [paint] no
    program is created and no shader is compiled or linked; that [paint]
    creates exactly one program, compiles the vertex and the fragment
    shader from their sources, binds the attribute location and links,
    once each and in this order, and stores the program; whatever follows,
    later [paint]s included, creates no program, compiles and links
    nothing, and leaves that same program in place. *)
Theorem program_created_once s pre post s' :
  ImageRenderer.program_ (this s) = None ->
  Forall (fun op => is_paint op = false) pre ->
  run (pre ++ OpPaint :: post) s = Returns tt s' ->
  exists s1 s2 p,
    run pre s = Returns tt s1 /\
    paint s1 = Returns tt s2 /\
    run post s2 = Returns tt s' /\
    ImageRenderer.program_ (this s1) = None /\
    program_creations (calls s1) = program_creations (calls s) /\
    program_build (calls s1) = program_build (calls s) /\
    ImageRenderer.program_ (this s2) = Some p /\
    program_creations (calls s2) = S (program_creations (calls s)) /\
    program_build (calls s2) = program_build (calls s) ++ program_calls p /\
    ImageRenderer.program_ (this s') = Some p /\
    program_creations (calls s') = S (program_creations (calls s)) /\
    program_build (calls s') = program_build (calls s) ++ program_calls p.
Proof.
  intros Hnone Hpre Hrun.
  apply for_each_app_inv in Hrun as (s1 & Hrun1 & Hrun).
  fold (run (OpPaint :: post)) in Hrun. rewrite run_cons in Hrun.
  apply bind_inv in Hrun as ([] & s2 & Hpaint & Hrun2).
  cbn [step] in Hpaint.
  destruct (run_other_program _ _ _ Hpre Hrun1) as [Hp1 Hn1].
  pose proof (run_other_build _ _ _ Hpre Hrun1) as Hb1.
  destruct (paint_program _ _ Hpaint) as [Hp2 Hn2].
  pose proof (paint_build _ _ Hpaint) as Hb2.
  rewrite Hp1, Hnone in Hn2, Hb2.
  destruct (run_keeps_program _ _ _ _ Hp2 Hrun2) as [Hp3 Hn3].
  pose proof (run_keeps_build _ _ _ _ Hp2 Hrun2) as Hb3.
  assert (program_of s1 = next s1) as Hof.
  { unfold program_of. by rewrite Hp1, Hnone. }
  exists s1, s2, (program_of s1).
  rewrite Hb3, Hb2, Hb1, Hof.
  repeat split; try done; try congruence; lia.
Qed.

(** ** The further properties on the session *)

Lemma program_created_once_session :
  exists s1 s2 p,
    run [OpUpdateImages [Session.doc_a]; OpSetCurrent Session.image_a] Session.fresh
    = Returns tt s1 /\
    paint s1 = Returns tt s2 /\
    run Session.frames s2 = Returns tt Session.after_frames /\
    ImageRenderer.program_ (this s1) = None /\
    program_creations (calls s1) = program_creations (calls Session.fresh) /\
    program_build (calls s1) = program_build (calls Session.fresh) /\
    ImageRenderer.program_ (this s2) = Some p /\
    program_creations (calls s2) = S (program_creations (calls Session.fresh)) /\
    program_build (calls s2) =
    program_build (calls Session.fresh) ++ program_calls p /\
    ImageRenderer.program_ (this Session.after_frames) = Some p /\
    program_creations (calls Session.after_frames)
    = S (program_creations (calls Session.fresh)) /\
    program_build (calls Session.after_frames) =
    program_build (calls Session.fresh) ++ program_calls p.
Proof.
  apply program_created_once.
  - reflexivity.
  - repeat constructor.
  - vm_compute. reflexivity.
Defined.


Lemma owns_live_ready : owns_live Session.ready.
Proof.
  apply (owns_live_step (OpSetCurrent Session.image_a) Session.both_open);
    [vm_compute; reflexivity|].
  apply (owns_live_updateImages
           [Session.doc_a; Session.doc_b; Session.doc_a] Session.fresh);
    [vm_compute; reflexivity|].
  by apply owns_live_empty.
Qed.

Lemma updateImages_deletes_unreferenced_later :
  deleted_textures (new_calls Session.ready Later.closed_a) =
  victims [Session.doc_b] (cache Session.ready).
Proof.
  apply updateImages_deletes_unreferenced. vm_compute. reflexivity.
Defined.

Lemma updateImages_creates_missing_session :
  length (created_textures (new_calls Session.fresh Session.both_open)) =
  size (missing [Session.doc_a; Session.doc_b; Session.doc_a]
          (cache Session.fresh)) /\
  next Session.both_open =
  (next Session.fresh +
   N.of_nat (size (missing [Session.doc_a; Session.doc_b; Session.doc_a]
                     (cache Session.fresh))))%N.
Proof.
  apply updateImages_creates_missing. vm_compute. reflexivity.
Defined.

Lemma updateImages_only_texture_calls_session :
  Forall (fun c => is_texture_lifecycle c = true)
    (new_calls Session.fresh Session.both_open).
Proof.
  apply (updateImages_only_texture_calls
           [Session.doc_a; Session.doc_b; Session.doc_a]).
  vm_compute. reflexivity.
Defined.

Lemma updateImages_frame_later :
  ImageRenderer.program_ (this Later.closed_a) =
  ImageRenderer.program_ (this Session.ready) /\
  ImageRenderer.current_ (this Later.closed_a) =
  ImageRenderer.current_ (this Session.ready) /\
  ImageRenderer.renderRegion_ (this Later.closed_a) =
  ImageRenderer.renderRegion_ (this Session.ready) /\
  ImageRenderer.clearColor_ (this Later.closed_a) =
  ImageRenderer.clearColor_ (this Session.ready) /\
  ImageRenderer.settings_ (this Later.closed_a) =
  ImageRenderer.settings_ (this Session.ready).
Proof.
  apply (updateImages_frame [Session.doc_b]). vm_compute. reflexivity.
Defined.

Lemma updateImages_returns_iff_session :
  (exists s', updateImages [Session.doc_a; Session.doc_b] Session.fresh
              = Returns tt s') <->
  Forall (fun doc => ImageDocument.image doc <> None)
    [Session.doc_a; Session.doc_b].
Proof. apply updateImages_returns_iff. reflexivity. Defined.


Lemma updateImages_uploads_image_later :
  exists t doc image before after,
    cache Later.reopened !! Some 1%positive = Some (Some t) /\
    doc ∈ [Session.doc_a; Session.doc_b] /\
    ImageDocument.image doc = Some (1%positive, image) /\
    new_calls Later.closed_a Later.reopened =
    before ++ texture_calls t image ++ after.
Proof.
  apply updateImages_uploads_image.
  - vm_compute. reflexivity.
  - apply elem_of_referenced_cons. by left.
  - vm_compute. reflexivity.
Defined.

Lemma paint_repeatable_session :
  this Session.painted =
  ImageRenderer.set_program_ (Some (program_of Session.ready))
    (this Session.ready) /\
  exists s2,
    paint Session.painted = Returns tt s2 /\
    this s2 = this Session.painted /\
    next s2 = next Session.painted /\
    new_calls Session.ready Session.painted =
    setup_calls Session.ready ++ new_calls Session.painted s2.
Proof. apply paint_repeatable. vm_compute. reflexivity. Defined.

Lemma paint_after_drop_later :
  exists s2,
    paint Later.closed_a = Undefined s2 /\
    cache Later.closed_a !! Some 1%positive = None /\
    cache s2 !! Some 1%positive = Some None.
Proof.
  apply (paint_after_drop Session.ready [Session.doc_b] Later.closed_a
           1%positive Session.rgb_2x1).
  - vm_compute. reflexivity.
  - reflexivity.
  - intros [Heq|Hin]%elem_of_referenced_cons; [discriminate Heq|].
    by apply elem_of_empty in Hin.
Defined.

Lemma run_owns_live_session : owns_live Session.after_frames.
Proof.
  apply (run_owns_live
           ([OpUpdateImages [Session.doc_a]; OpSetCurrent Session.image_a]
              ++ OpPaint :: Session.frames) Session.fresh).
  - by apply owns_live_empty.
  - vm_compute. reflexivity.
Defined.

Lemma paint_binds_live_texture_session :
  exists a image t,
    ImageRenderer.current_ (this Session.ready) = Some (a, image) /\
    cache Session.ready !! Some a = Some (Some t) /\
    bound_textures (new_calls Session.ready Session.painted) = [t] /\
    t ∈ created_textures (calls Session.ready) /\
    t ∉ deleted_textures (calls Session.ready).
Proof.
  apply paint_binds_live_texture.
  - apply owns_live_ready.
  - vm_compute. reflexivity.
Defined.

Lemma live_textures_counted_session :
  length (created_textures (calls Session.after_frames)) =
  (length (deleted_textures (calls Session.after_frames))
   + size (cache Session.after_frames))%nat.
Proof.
  apply (live_textures_counted
           ([OpUpdateImages [Session.doc_a]; OpSetCurrent Session.image_a]
              ++ OpPaint :: Session.frames) Session.fresh).
  - by apply owns_live_empty.
  - vm_compute. reflexivity.
Defined.

Lemma paint_zero_width_region_later :
  exists position scale,
    uniform_values "position" (new_calls Later.narrow Later.narrow_painted)
    = [UVec2 position] /\
    uniform_values "scale" (new_calls Later.narrow Later.narrow_painted)
    = [UVec2 scale] /\
    not_finite (QVector2D.x position) = true /\
    not_finite (QVector2D.x scale) = true.
Proof.
  apply paint_zero_width_region.
  - reflexivity.
  - vm_compute. reflexivity.
Defined.
